(** * Text-analysis core of the writing assistant (app.py)

    A shallow embedding of the statistical pipeline of [app.py]:
    [preprocess_text], the two frequency charts, [calculate_perplexity],
    [calculate_burstiness], [is_generated_text] and the text-analysis branch of
    [main], together with the small part of NLTK and of the Python runtime those
    functions call.

    Conventions.
    - Python [str] is [string]; a list of tokens is [list string].
    - Python floats are idealised as extended reals ([pyfloat]): rounding and
      overflow are not modelled, the two infinities and NaN are.
    - A raised exception is the [Raise] alternative of [result].
    - [nltk.FreqDist] (a [collections.Counter], hence an insertion-ordered
      dict) is an association list in insertion order. *)

From Stdlib Require Import List String Ascii Bool Arith PeanoNat Lia.
From Stdlib Require Import Permutation Sorted.
From Stdlib Require Import Reals Lra.
Import ListNotations.

Local Open Scope string_scope.
Local Open Scope nat_scope.
Local Open Scope list_scope.

(* ================================================================= *)
(** ** Python runtime: exceptions *)

Inductive exn : Type :=
| ZeroDivisionError
| ValueError
| TypeError
| IndexError.

Inductive result (A : Type) : Type :=
| Ok (a : A)
| Raise (e : exn).

Arguments Ok {A} a.
Arguments Raise {A} e.

Definition bind {A B : Type} (m : result A) (k : A -> result B) : result B :=
  match m with
  | Ok a => k a
  | Raise e => Raise e
  end.

Notation "x <- m ;; k" := (bind m (fun x => k))
  (at level 61, m at next level, right associativity).

(* ================================================================= *)
(** ** Python runtime: strings *)

Module Str.

(** [c.lower()] on an ASCII letter. *)
Definition lower_ascii (c : ascii) : ascii :=
  let n := nat_of_ascii c in
  if (65 <=? n) && (n <=? 90) then ascii_of_nat (n + 32) else c.

(** [s.lower()]. *)
Fixpoint lower (s : string) : string :=
  match s with
  | EmptyString => EmptyString
  | String c r => String (lower_ascii c) (lower r)
  end.

(** [needle in hay] for two [str] operands: the substring test. *)
Fixpoint contains (hay needle : string) : bool :=
  String.prefix needle hay
  || match hay with
     | EmptyString => false
     | String _ r => contains r needle
     end.

(** [w in l] for a list or a set of strings. *)
Definition mem (w : string) (l : list string) : bool :=
  existsb (String.eqb w) l.

(** The characters of a string, each as a one-character string: what
    iterating over a [str] yields. *)
Definition chars (s : string) : list string :=
  map (fun c => String c EmptyString) (list_ascii_of_string s).

(** [string.punctuation]: the 32 ASCII punctuation characters in code order,
    codes 33-47, 58-64, 91-96 and 123-126. *)
Definition punctuation : string :=
  string_of_list_ascii
    (map ascii_of_nat (seq 33 15 ++ seq 58 7 ++ seq 91 6 ++ seq 123 4)).

(** A string every character of which is a punctuation character. *)
Definition is_punct_char (c : ascii) : bool :=
  existsb (Ascii.eqb c) (list_ascii_of_string punctuation).

Definition punctuation_only (s : string) : bool :=
  negb (String.eqb s EmptyString)
  && forallb is_punct_char (list_ascii_of_string s).

End Str.

(* ================================================================= *)
(** ** nltk.FreqDist *)

Module FreqDist.

(** Items in insertion order. *)
Definition t : Type := list (string * nat).

(** [self[w]]; a missing key counts 0 ([Counter.__missing__]). *)
Fixpoint get (d : t) (w : string) : nat :=
  match d with
  | [] => 0
  | (k, c) :: r => if String.eqb k w then c else get r w
  end.

(** [self[w] = self.get(w, 0) + 1]: an existing key keeps its position, a new
    key goes last. *)
Fixpoint incr (w : string) (d : t) : t :=
  match d with
  | [] => [(w, 1)]
  | (k, c) :: r =>
      if String.eqb k w then (k, S c) :: r else (k, c) :: incr w r
  end.

(** [FreqDist(tokens)]: [Counter.update] over the tokens, left to right. *)
Definition of_tokens (tokens : list string) : t :=
  fold_left (fun d w => incr w d) tokens [].

Definition items (d : t) : list (string * nat) := d.
Definition keys (d : t) : list string := map fst d.
Definition values (d : t) : list nat := map snd d.
Definition len (d : t) : nat := List.length d.

(** One step of the stable sort by descending count: [x], which came before
    everything in [s], moves right only past strictly larger counts. *)
Fixpoint insert_desc (x : string * nat) (s : list (string * nat)) :
  list (string * nat) :=
  match s with
  | [] => [x]
  | y :: r => if snd y <=? snd x then x :: s else y :: insert_desc x r
  end.

(** [sorted(items, key=itemgetter(1), reverse=True)]: stable, so equal counts
    keep their original order. *)
Fixpoint sorted_desc (l : list (string * nat)) : list (string * nat) :=
  match l with
  | [] => []
  | x :: r => insert_desc x (sorted_desc r)
  end.

(** [Counter.most_common(n)], which is
    [heapq.nlargest(n, self.items(), key=itemgetter(1))], documented as
    [sorted(self.items(), key=itemgetter(1), reverse=True)[:n]]. *)
Definition most_common (n : nat) (d : t) : list (string * nat) :=
  firstn n (sorted_desc (items d)).

End FreqDist.

(** [a, b = zip] applied to the star-unpacked list of pairs: [zip] of no
    argument yields nothing, and unpacking nothing into two names raises
    [ValueError]; a non-empty list of pairs yields its two columns. *)
Definition unpack_zip_star {A B : Type} (pairs : list (A * B)) :
  result (list A * list B) :=
  match pairs with
  | [] => Raise ValueError
  | _ :: _ => Ok (map fst pairs, map snd pairs)
  end.

(* ================================================================= *)
(** ** Preprocessing and the two charts *)

Section Frequency.

(** [nltk.word_tokenize] and [stopwords.words('english')] belong to NLTK and
    its data; the functions below take them as they come. *)
Variable word_tokenize : string -> list string.
Variable stopwords_english : list string.

Definition preprocess_text (text : string) : list string :=
  let tokens := word_tokenize (Str.lower text) in
  let stop_words := stopwords_english in
  filter (fun token =>
            negb (Str.mem token stop_words)
            && negb (Str.contains Str.punctuation token))
         tokens.

(** The local [most_common_words] of [plot_most_common_words]. *)
Definition most_common_words (text : string) : list (string * nat) :=
  let tokens := preprocess_text text in
  let word_freq := FreqDist.of_tokens tokens in
  FreqDist.most_common 10 word_freq.

(** [plot_most_common_words]: the result is what reaches [plt.bar]. *)
Definition plot_most_common_words (text : string) :
  result (list string * list nat) :=
  unpack_zip_star (most_common_words text).

(** The local [repeated_words] of [plot_repeated_words]. *)
Definition repeated_words (text : string) : list string :=
  let tokens := preprocess_text text in
  let word_freq := FreqDist.of_tokens tokens in
  firstn 10
    (map fst (filter (fun wc => 1 <? snd wc) (FreqDist.items word_freq))).

(** The list handed to [zip] in [plot_repeated_words]. *)
Definition repeated_pairs (text : string) : list (string * nat) :=
  let tokens := preprocess_text text in
  let word_freq := FreqDist.of_tokens tokens in
  map (fun word => (word, FreqDist.get word_freq word)) (repeated_words text).

Definition plot_repeated_words (text : string) :
  result (list string * list nat) :=
  unpack_zip_star (repeated_pairs text).

End Frequency.

(* ================================================================= *)
(** ** Python runtime: floats *)

Module Float.

(** A Python float: a real, one of the two infinities, or NaN. *)
Inductive t : Type :=
| Fin (r : R)
| PosInf
| NegInf
| NaN.

(** [x < y]; every comparison with NaN is false. *)
Definition ltb (x y : t) : bool :=
  match x, y with
  | Fin a, Fin b => if Rlt_dec a b then true else false
  | Fin _, PosInf => true
  | NegInf, Fin _ => true
  | NegInf, PosInf => true
  | _, _ => false
  end.

(** [x + y]. *)
Definition add (x y : t) : t :=
  match x, y with
  | Fin a, Fin b => Fin (a + b)
  | NaN, _ | _, NaN => NaN
  | PosInf, NegInf | NegInf, PosInf => NaN
  | PosInf, _ | _, PosInf => PosInf
  | NegInf, _ | _, NegInf => NegInf
  end.

(** [sum(xs)], from the integer 0, left to right. *)
Definition sum (xs : list t) : t := fold_left add xs (Fin 0).

(** [-1 * x]. *)
Definition neg (x : t) : t :=
  match x with
  | Fin a => Fin (- a)
  | PosInf => NegInf
  | NegInf => PosInf
  | NaN => NaN
  end.

(** [x / n] for an [int] n: division by zero raises. *)
Definition div_int (x : t) (n : nat) : result t :=
  match n with
  | O => Raise ZeroDivisionError
  | S _ =>
      match x with
      | Fin a => Ok (Fin (a / INR n))
      | other => Ok other
      end
  end.

(** [pow(2.0, x)]. *)
Definition pow2 (x : t) : t :=
  match x with
  | Fin a => Fin (Rpower 2 a)
  | PosInf => PosInf
  | NegInf => Fin 0
  | NaN => NaN
  end.

(** [x / y] on two finite operands: true division, raising on a zero
    divisor. *)
Definition true_div (x y : R) : result R :=
  if Req_dec_T y 0 then Raise ZeroDivisionError else Ok (x / y)%R.

End Float.

(** [sum] of a generator of finite floats, and of a sequence of ints: from 0,
    left to right. *)
Definition Rsum (xs : list R) : R := fold_left Rplus xs 0%R.

Definition int_sum (xs : list nat) : nat := fold_left Nat.add xs 0.

(* ================================================================= *)
(** ** Burstiness and the classifier *)

Section Burstiness.

Variable word_tokenize : string -> list string.
Variable stopwords_english : list string.

Definition calculate_burstiness (text : string) : result Float.t :=
  let tokens := preprocess_text word_tokenize stopwords_english text in
  let word_freq := FreqDist.of_tokens tokens in
  avg_freq <- Float.true_div (INR (int_sum (FreqDist.values word_freq)))
                             (INR (FreqDist.len word_freq)) ;;
  variance <- Float.true_div
                (Rsum (map (fun freq => ((INR freq - avg_freq) ^ 2)%R)
                           (FreqDist.values word_freq)))
                (INR (FreqDist.len word_freq)) ;;
  burstiness_score <- Float.true_div variance (avg_freq ^ 2)%R ;;
  Ok (Float.Fin burstiness_score).

End Burstiness.

(** An argument of the classifier: a float, or [None]. *)
Inductive pyval : Type :=
| PNone
| PFloat (x : Float.t).

(** [v < bound] with [bound] a number: [None] is not ordered against a
    number, the comparison raises [TypeError]. *)
Definition py_lt (v : pyval) (bound : Float.t) : result bool :=
  match v with
  | PNone => Raise TypeError
  | PFloat x => Ok (Float.ltb x bound)
  end.

Definition likely : string := "Likely generated by a language model".
Definition not_likely : string := "Not likely generated by a language model".

(** [and] evaluates its right operand only when the left one is true. *)
Definition is_generated_text (perplexity burstiness_score : pyval) :
  result string :=
  c1 <- py_lt perplexity (Float.Fin 100) ;;
  if c1 : bool then
    c2 <- py_lt burstiness_score (Float.Fin 1) ;;
    if c2 : bool then Ok likely else Ok not_likely
  else Ok not_likely.

(* ================================================================= *)
(** ** nltk.util and nltk.lm

    The definitions of this part follow the NLTK library that [app.py]
    imports: the n-gram helpers, the vocabulary with its unknown label and
    cutoff, the n-gram counter, and the maximum-likelihood model with its
    score, log-score, entropy and perplexity. *)

Definition ngram : Type := list string.

Definition ngram_eq_dec : forall a b : ngram, {a = b} + {a <> b} :=
  list_eq_dec string_dec.

(** [nltk.util.ngrams(sequence, n)]: the windows of [n] consecutive items. *)
Fixpoint windows (n : nat) (sequence : list string) : list ngram :=
  match sequence with
  | [] => []
  | _ :: r =>
      if n <=? List.length sequence
      then firstn n sequence :: windows n r
      else []
  end.

Definition ngrams (sequence : list string) (n : nat) : list ngram :=
  match n with
  | O => []
  | S _ => windows n sequence
  end.

(** [everygrams(sequence, max_len=n)]: the n-grams of every length from 1
    to n. *)
Definition everygrams (sequence : list string) (max_len : nat) : list ngram :=
  flat_map (ngrams sequence) (seq 1 max_len).

(** [pad_both_ends(sentence, n)]: n-1 boundary markers on each side. *)
Definition pad_both_ends (sentence : list string) (n : nat) : list string :=
  repeat "<s>" (n - 1) ++ sentence ++ repeat "</s>" (n - 1).

(** [padded_everygram_pipeline(order, text)]: the training n-grams of each
    sentence, and the flat stream of padded words for the vocabulary. *)
Definition padded_everygram_pipeline (order : nat) (text : list (list string)) :
  list (list ngram) * list string :=
  (map (fun sent => everygrams (pad_both_ends sent order) order) text,
   flat_map (fun sent => pad_both_ends sent order) text).

(** [ngram[:-1], ngram[-1]]; indexing the empty tuple raises. *)
Fixpoint split_last (g : ngram) : option (list string * string) :=
  match g with
  | [] => None
  | w :: r =>
      match split_last r with
      | None => Some ([], w)
      | Some (ctx, l) => Some (w :: ctx, l)
      end
  end.

Module Vocabulary.

Record t : Type := { counts : FreqDist.t; cutoff : nat }.

Definition unk_label : string := "<UNK>".

(** [Vocabulary()]: no counts, [unk_cutoff=1]. *)
Definition empty : t := {| counts := []; cutoff := 1 |}.

(** [self[item]]. *)
Definition getitem (v : t) (item : string) : nat :=
  if String.eqb item unk_label then cutoff v else FreqDist.get (counts v) item.

(** [item in self]. *)
Definition contains (v : t) (item : string) : bool :=
  cutoff v <=? getitem v item.

(** [lookup] of one word: the word itself when known, the unknown label
    otherwise. *)
Definition lookup (v : t) (word : string) : string :=
  if contains v word then word else unk_label.

(** [update(words)]. *)
Definition update (v : t) (words : list string) : t :=
  {| counts := fold_left (fun d w => FreqDist.incr w d) words (counts v);
     cutoff := cutoff v |}.

(** [not self]: the length counts the known items and, as soon as anything
    was counted, the unknown label; it is 0 exactly when nothing was. *)
Definition is_empty (v : t) : bool :=
  match counts v with
  | [] => true
  | _ :: _ => false
  end.

End Vocabulary.

Module NgramCounter.

(** The counter as the multiset of the n-grams it was fed:
    [self[len(context)+1][context][word]] is the number of occurrences of
    [context + (word,)], and the unigram distribution is the case of the
    empty context. *)
Definition t : Type := list ngram.

Definition update (c : t) (ngram_text : list (list ngram)) : t :=
  c ++ List.concat ngram_text.

Definition count (c : t) (context : list string) (word : string) : nat :=
  count_occ ngram_eq_dec c (context ++ [word]).

(** [N()] of the distribution of the words that follow [context]. *)
Definition total (c : t) (context : list string) : nat :=
  List.length
    (filter (fun g =>
               match split_last g with
               | Some (ctx, _) => if ngram_eq_dec ctx context then true else false
               | None => false
               end) c).

(** [FreqDist.freq]: 0 when the distribution is empty. *)
Definition freq (c : t) (context : list string) (word : string) : R :=
  match total c context with
  | O => 0%R
  | S _ => (INR (count c context word) / INR (total c context))%R
  end.

End NgramCounter.

Record LanguageModel : Type :=
  { order : nat;
    vocab : Vocabulary.t;
    counts : NgramCounter.t }.

(** [MLE(order)]. *)
Definition MLE (order : nat) : LanguageModel :=
  {| order := order; vocab := Vocabulary.empty; counts := [] |}.

(** [fit(text, vocabulary_text)]: an empty vocabulary is filled first, then
    the n-grams are counted after each word went through the vocabulary. *)
Definition fit (m : LanguageModel) (text : list (list ngram))
  (vocabulary_text : list string) : LanguageModel :=
  let v := if Vocabulary.is_empty (vocab m)
           then Vocabulary.update (vocab m) vocabulary_text
           else vocab m in
  {| order := order m;
     vocab := v;
     counts := NgramCounter.update (counts m)
                 (map (map (map (Vocabulary.lookup v))) text) |}.

(** [MLE.unmasked_score]: the relative frequency. *)
Definition unmasked_score (m : LanguageModel) (word : string)
  (context : list string) : R :=
  NgramCounter.freq (counts m) context word.

(** [score]: word and context go through the vocabulary. *)
Definition score (m : LanguageModel) (word : string) (context : list string) :
  R :=
  unmasked_score m (Vocabulary.lookup (vocab m) word)
                 (map (Vocabulary.lookup (vocab m)) context).

(** [log_base2]: minus infinity at 0, [log(score, 2)] otherwise. *)
Definition log_base2 (s : R) : Float.t :=
  if Req_dec_T s 0 then Float.NegInf else Float.Fin (ln s / ln 2)%R.

Definition logscore (m : LanguageModel) (word : string)
  (context : list string) : Float.t :=
  log_base2 (score m word context).

(** The list comprehension of [entropy]: the log-score of every n-gram. *)
Fixpoint logscores (m : LanguageModel) (text_ngrams : list ngram) :
  result (list Float.t) :=
  match text_ngrams with
  | [] => Ok []
  | g :: r =>
      match split_last g with
      | None => Raise IndexError
      | Some (ctx, w) =>
          rest <- logscores m r ;;
          Ok (logscore m w ctx :: rest)
      end
  end.

(** [_mean(items)]. *)
Definition mean (items : list Float.t) : result Float.t :=
  Float.div_int (Float.sum items) (List.length items).

Definition entropy (m : LanguageModel) (text_ngrams : list ngram) :
  result Float.t :=
  ls <- logscores m text_ngrams ;;
  mu <- mean ls ;;
  Ok (Float.neg mu).

Definition perplexity (m : LanguageModel) (text_ngrams : list ngram) :
  result Float.t :=
  e <- entropy m text_ngrams ;;
  Ok (Float.pow2 e).

(* ================================================================= *)
(** ** Perplexity of a text and the text-analysis branch of main *)

Section Analysis.

Variable word_tokenize : string -> list string.
Variable stopwords_english : list string.

Definition calculate_perplexity (text : string) (model : LanguageModel) :
  result Float.t :=
  let tokens := preprocess_text word_tokenize stopwords_english text in
  let padded_tokens := ["<s>"] ++ tokens ++ ["</s>"] in
  let ngrams_sequence := ngrams padded_tokens (order model) in
  perplexity model ngrams_sequence.

(** The model [main] trains.  The corpus is a flat sequence of words, so each
    sentence the pipeline iterates over is one word, that is, the sequence of
    its characters. *)
Definition train (corpus : list string) : LanguageModel :=
  let '(train_data, padded_vocab) :=
    padded_everygram_pipeline 1 (map Str.chars corpus) in
  fit (MLE 1) train_data padded_vocab.

(** What the page shows. *)
Inductive event : Type :=
| WriteFloat (label : string) (x : Float.t)
| WriteText (label : string) (s : string)
| Pyplot (words : list string) (heights : list nat)
| Warning (msg : string).

(** The branch of [main] for the Text Analysis feature once Analyze is
    pressed: the events shown, and the exception that ended it, if any. *)
Definition text_analysis (corpus : list string) (text : string) :
  list event * option exn :=
  if String.eqb text EmptyString then
    ([Warning "Please enter some text to analyze."], None)
  else
    let model := train corpus in
    match calculate_perplexity text model with
    | Raise e => ([], Some e)
    | Ok p =>
        let shown1 := [WriteFloat "Perplexity:" p] in
        match calculate_burstiness word_tokenize stopwords_english text with
        | Raise e => (shown1, Some e)
        | Ok b =>
            let shown2 := shown1 ++ [WriteFloat "Burstiness Score:" b] in
            match is_generated_text (PFloat p) (PFloat b) with
            | Raise e => (shown2, Some e)
            | Ok generated_cue =>
                let shown3 :=
                  shown2 ++ [WriteText "Text Analysis Result:" generated_cue] in
                match plot_most_common_words word_tokenize stopwords_english
                        text with
                | Raise e => (shown3, Some e)
                | Ok (words, heights) =>
                    let shown4 := shown3 ++ [Pyplot words heights] in
                    match plot_repeated_words word_tokenize stopwords_english
                            text with
                    | Raise e => (shown4, Some e)
                    | Ok (words', heights') =>
                        (shown4 ++ [Pyplot words' heights'], None)
                    end
                end
            end
        end
    end.

End Analysis.

(* ================================================================= *)
(** ** Reference notions the statements are phrased with *)

(** Number of occurrences of a token in a token sequence. *)
Definition occurrences (tokens : list string) (w : string) : nat :=
  count_occ string_dec tokens w.

(** The distinct tokens of a sequence, in the order of their first
    occurrence. *)
Fixpoint first_occurrences (tokens : list string) : list string :=
  match tokens with
  | [] => []
  | x :: r => x :: filter (fun y => negb (String.eqb y x)) (first_occurrences r)
  end.

(** The frequency distribution of a token sequence, as the spec describes it:
    every distinct token with its number of occurrences, in first-occurrence
    order. *)
Definition distribution (tokens : list string) : list (string * nat) :=
  map (fun w => (w, occurrences tokens w)) (first_occurrences tokens).

(** Descending order of counts. *)
Definition count_ge (a b : string * nat) : Prop := snd b <= snd a.

(** The entries whose count is exactly [c], in order. *)
Definition with_count (c : nat) (l : list (string * nat)) :
  list (string * nat) :=
  filter (fun p => snd p =? c) l.

(** The four tokens of the text made of the word test four times. *)
Definition four_tests : list string := ["test"; "test"; "test"; "test"].

(** The order of floats: NaN is related to nothing. *)
Definition float_lt (x y : Float.t) : Prop :=
  match x, y with
  | Float.Fin a, Float.Fin b => (a < b)%R
  | Float.Fin _, Float.PosInf => True
  | Float.NegInf, Float.Fin _ => True
  | Float.NegInf, Float.PosInf => True
  | _, _ => False
  end.

Definition finite (x : Float.t) : Prop :=
  match x with
  | Float.Fin _ => True
  | _ => False
  end.

(** Mean and population variance of a list of counts, and the burstiness the
    spec derives from them. *)
Definition spec_mean (counts : list nat) : R :=
  (fold_right Rplus 0 (map INR counts) / INR (List.length counts))%R.

Definition spec_variance (counts : list nat) : R :=
  (fold_right Rplus 0
     (map (fun c => (INR c - spec_mean counts) * (INR c - spec_mean counts))
          counts)
   / INR (List.length counts))%R.

Definition spec_burstiness (counts : list nat) : R :=
  (spec_variance counts / (spec_mean counts * spec_mean counts))%R.

(** The conditional probability the model gives to an n-gram: its last word
    given the words before it. *)
Definition ngram_probability (m : LanguageModel) (g : ngram) : R :=
  match split_last g with
  | Some (ctx, w) => score m w ctx
  | None => 0%R
  end.

Definition Rprod (xs : list R) : R := fold_right Rmult 1%R xs.

(** The n-grams [calculate_perplexity] queries for a token sequence: those of
    the sequence between one start and one end marker. *)
Definition queried_ngrams (m : LanguageModel) (tokens : list string) :
  list ngram :=
  ngrams (["<s>"] ++ tokens ++ ["</s>"]) (order m).

(** The n-grams of a sequence, position by position. *)
Definition ngrams_by_position (sequence : list string) (n : nat) :
  list ngram :=
  map (fun i => firstn n (skipn i sequence))
      (seq 0 (List.length sequence + 1 - n)).

(** The stream of characters of a corpus of words. *)
Definition corpus_chars (corpus : list string) : list string :=
  flat_map Str.chars corpus.

(** A unigram model that has seen the two boundary markers once each. *)
Definition markers_model : LanguageModel :=
  {| order := 1;
     vocab := Vocabulary.update Vocabulary.empty ["<s>"; "</s>"];
     counts := [["<s>"]; ["</s>"]] |}.

(** A unigram model that has seen the two boundary markers and the word
    hello once each. *)
Definition hello_model : LanguageModel :=
  {| order := 1;
     vocab := Vocabulary.update Vocabulary.empty ["<s>"; "hello"; "</s>"];
     counts := [["<s>"]; ["hello"]; ["</s>"]] |}.

(* ================================================================= *)
(** ** Grammar checking *)

(** A match reported by LanguageTool: the fields the function reads. *)
Record Match : Type :=
  { message : string;
    offset : nat;
    errorLength : nat;
    replacements : list string;
    context : string }.

(** An entry of the list [check_grammar_with_explanations] returns: the dict
    with the keys error, incorrect_text, suggestions and context. *)
Record GrammarError : Type :=
  { error : string;
    incorrect_text : string;
    suggestions : list string;
    error_context : string }.

(** [s[start:stop]] for non-negative bounds: both ends are clamped to the
    string, and a stop before the start gives the empty string. *)
Definition slice (s : string) (start stop : nat) : string :=
  String.substring start (stop - start) s.

Section Grammar.

(** [LanguageTool('en-US').check]: the external checker. *)
Variable tool_check : string -> list Match.

Definition check_grammar_with_explanations (text : string) :
  list GrammarError :=
  let matches := tool_check text in
  map (fun m =>
         {| error := message m;
            incorrect_text :=
              slice text (offset m) (offset m + errorLength m);
            suggestions := replacements m;
            error_context := context m |})
      matches.

End Grammar.

(* ================================================================= *)
(** ** The download of the Article Writer branch of main *)

(** [s.replace(old, new)] for one-character [old] and [new]: every
    occurrence of the character is replaced. *)
Fixpoint replace_char (old new : ascii) (s : string) : string :=
  match s with
  | EmptyString => EmptyString
  | String c r =>
      String (if Ascii.eqb c old then new else c) (replace_char old new r)
  end.

Definition space : ascii := ascii_of_nat 32.
Definition underscore : ascii := ascii_of_nat 95.

(** The [file_name] of the download button: the topic with its spaces
    turned into underscores, with the extension md. *)
Definition article_file_name (topic : string) : string :=
  (replace_char space underscore topic ++ ".md")%string.

(** Equality of all per-token counts of a token sequence. *)
Definition uniform_counts (tokens : list string) : Prop :=
  forall w v, In w tokens -> In v tokens ->
              occurrences tokens w = occurrences tokens v.

(** Descending order of chart heights. *)
Definition height_ge (a b : nat) : Prop := b <= a.

(* ================================================================= *)
(** ** Facts about first occurrences *)

Lemma mem_In (w : string) (l : list string) : Str.mem w l = true <-> In w l.
Proof.
  unfold Str.mem. rewrite existsb_exists. split.
  - intros [x [Hin Heq]]. apply String.eqb_eq in Heq. now subst.
  - intros Hin. exists w. split; [assumption | apply String.eqb_refl].
Qed.

Lemma mem_false (w : string) (l : list string) :
  Str.mem w l = false <-> ~ In w l.
Proof.
  rewrite <- mem_In. destruct (Str.mem w l); split; intros H; easy.
Qed.

Lemma first_occurrences_In (l : list string) (w : string) :
  In w (first_occurrences l) <-> In w l.
Proof.
  induction l as [| x r IH]; simpl; [tauto |].
  rewrite filter_In, IH. destruct (String.eqb_spec w x) as [-> | Hne].
  - simpl. split; auto.
  - simpl. split.
    + intros [H | [H _]]; auto.
    + intros [H | H]; [now left | right; auto].
Qed.

Lemma first_occurrences_NoDup (l : list string) : NoDup (first_occurrences l).
Proof.
  induction l as [| x r IH]; simpl; constructor.
  - rewrite filter_In. intros [_ H]. now rewrite String.eqb_refl in H.
  - now apply NoDup_filter.
Qed.

Lemma first_occurrences_snoc (l : list string) (w : string) :
  first_occurrences (l ++ [w]) =
  if Str.mem w l then first_occurrences l else first_occurrences l ++ [w].
Proof.
  induction l as [| x r IH]; simpl; [reflexivity |].
  rewrite IH. unfold Str.mem at 2. simpl.
  destruct (String.eqb_spec w x) as [-> | Hne]; simpl.
  - fold (Str.mem x r). destruct (Str.mem x r); [reflexivity |].
    rewrite filter_app. simpl. rewrite String.eqb_refl. simpl.
    now rewrite app_nil_r.
  - fold (Str.mem w r). destruct (Str.mem w r); [reflexivity |].
    rewrite filter_app. simpl.
    destruct (String.eqb_spec w x); [contradiction | reflexivity].
Qed.

Lemma occurrences_snoc (l : list string) (w v : string) :
  occurrences (l ++ [w]) v =
  occurrences l v + (if String.eqb w v then 1 else 0).
Proof.
  unfold occurrences. rewrite count_occ_app. simpl.
  destruct (string_dec w v) as [-> | Hne].
  - now rewrite String.eqb_refl.
  - destruct (String.eqb_spec w v); [contradiction | reflexivity].
Qed.

(* ================================================================= *)
(** ** FreqDist computes the distribution *)

Lemma of_tokens_snoc (l : list string) (w : string) :
  FreqDist.of_tokens (l ++ [w]) = FreqDist.incr w (FreqDist.of_tokens l).
Proof. unfold FreqDist.of_tokens. now rewrite fold_left_app. Qed.

Lemma incr_tabulate (f : string -> nat) (w : string) (K : list string) :
  NoDup K ->
  FreqDist.incr w (map (fun v => (v, f v)) K) =
  if Str.mem w K
  then map (fun v => (v, f v + (if String.eqb w v then 1 else 0))) K
  else map (fun v => (v, f v)) K ++ [(w, 1)].
Proof.
  induction K as [| k r IH]; intros Hnd; [reflexivity |].
  inversion Hnd as [| ? ? Hnotin Hnd']; subst.
  cbn [map FreqDist.incr]. unfold Str.mem. cbn [existsb].
  fold (Str.mem w r). rewrite (String.eqb_sym k w).
  destruct (String.eqb_spec w k) as [-> | Hne]; cbn [orb map].
  - f_equal; [f_equal; lia |].
    apply map_ext_in. intros v Hin.
    destruct (String.eqb_spec k v) as [-> | _]; [contradiction |].
    f_equal. lia.
  - destruct (String.eqb_spec w k); [contradiction |].
    rewrite IH by assumption. rewrite Nat.add_0_r.
    now destruct (Str.mem w r).
Qed.

Lemma of_tokens_distribution (tokens : list string) :
  FreqDist.of_tokens tokens = distribution tokens.
Proof.
  induction tokens as [| w l IH] using rev_ind; [reflexivity |].
  rewrite of_tokens_snoc, IH. unfold distribution.
  rewrite incr_tabulate by apply first_occurrences_NoDup.
  rewrite first_occurrences_snoc.
  assert (Hmem : Str.mem w (first_occurrences l) = Str.mem w l).
  { destruct (Str.mem w l) eqn:E.
    - apply mem_In. apply first_occurrences_In. now apply mem_In.
    - apply mem_false. rewrite first_occurrences_In. now apply mem_false. }
  rewrite Hmem. destruct (Str.mem w l) eqn:E.
  - apply map_ext. intros v. now rewrite occurrences_snoc.
  - rewrite map_app. cbn [map]. f_equal.
    + apply map_ext_in. intros v Hin. rewrite occurrences_snoc.
      destruct (String.eqb_spec w v) as [-> | _]; [| now rewrite Nat.add_0_r].
      exfalso. apply (proj1 (mem_false _ _) E).
      exact (proj1 (first_occurrences_In _ _) Hin).
    + rewrite occurrences_snoc, String.eqb_refl.
      apply mem_false in E. unfold occurrences.
      now rewrite (proj1 (count_occ_not_In string_dec l w) E).
Qed.

Lemma distribution_keys (tokens : list string) :
  map fst (distribution tokens) = first_occurrences tokens.
Proof.
  unfold distribution. rewrite map_map. cbn [fst]. apply map_id.
Qed.

Lemma distribution_nil (tokens : list string) :
  distribution tokens = [] <-> tokens = [].
Proof.
  split; [| now intros ->].
  destruct tokens; [reflexivity | discriminate].
Qed.

Lemma distribution_In (tokens : list string) (w : string) (c : nat) :
  In (w, c) (distribution tokens) <-> In w tokens /\ c = occurrences tokens w.
Proof.
  unfold distribution. rewrite in_map_iff. split.
  - intros [v [Heq Hin]]. inversion Heq; subst.
    split; [now apply first_occurrences_In | reflexivity].
  - intros [Hin ->]. exists w. split; [reflexivity |].
    now apply first_occurrences_In.
Qed.

Lemma get_tabulate (f : string -> nat) (K : list string) (w : string) :
  In w K -> FreqDist.get (map (fun v => (v, f v)) K) w = f w.
Proof.
  induction K as [| k r IH]; [easy |]. intros Hin. cbn [map FreqDist.get].
  destruct (String.eqb_spec k w) as [-> | Hne]; [reflexivity |].
  destruct Hin as [-> | Hin]; [contradiction | auto].
Qed.

Lemma get_distribution (tokens : list string) (w : string) :
  FreqDist.get (distribution tokens) w = occurrences tokens w.
Proof.
  destruct (in_dec string_dec w tokens) as [Hin | Hnin].
  - apply get_tabulate. now apply first_occurrences_In.
  - unfold occurrences.
    rewrite (proj1 (count_occ_not_In string_dec tokens w) Hnin).
    unfold distribution.
    assert (H : ~ In w (first_occurrences tokens))
      by now rewrite first_occurrences_In.
    induction (first_occurrences tokens) as [| k r IH]; [reflexivity |].
    cbn [map FreqDist.get].
    destruct (String.eqb_spec k w) as [-> | _].
    + exfalso. apply H. now left.
    + apply IH. intros Hr. apply H. now right.
Qed.

(* ================================================================= *)
(** ** The stable descending sort *)

Lemma insert_desc_perm (x : string * nat) (s : list (string * nat)) :
  Permutation (FreqDist.insert_desc x s) (x :: s).
Proof.
  induction s as [| y r IH]; simpl; [reflexivity |].
  destruct (snd y <=? snd x); [reflexivity |].
  rewrite IH. apply perm_swap.
Qed.

Lemma sorted_desc_perm (l : list (string * nat)) :
  Permutation (FreqDist.sorted_desc l) l.
Proof.
  induction l as [| x r IH]; simpl; [reflexivity |].
  rewrite insert_desc_perm. now constructor.
Qed.

Lemma insert_desc_sorted (x : string * nat) (s : list (string * nat)) :
  Sorted count_ge s -> Sorted count_ge (FreqDist.insert_desc x s).
Proof.
  induction s as [| y r IH]; intros Hs; simpl.
  - repeat constructor.
  - destruct (Nat.leb_spec (snd y) (snd x)) as [Hle | Hgt].
    + constructor; [assumption |]. constructor. exact Hle.
    + inversion Hs as [| ? ? Hr Hhd]; subst.
      constructor; [now apply IH |].
      destruct r as [| z r']; simpl.
      * constructor. unfold count_ge. lia.
      * destruct (snd z <=? snd x).
        -- constructor. unfold count_ge. lia.
        -- constructor. now inversion Hhd.
Qed.

Lemma sorted_desc_sorted (l : list (string * nat)) :
  StronglySorted count_ge (FreqDist.sorted_desc l).
Proof.
  apply Sorted_StronglySorted.
  - intros a b c Hab Hbc. unfold count_ge in *. lia.
  - induction l as [| x r IH]; simpl; [constructor |].
    now apply insert_desc_sorted.
Qed.

Lemma insert_desc_stable (c : nat) (x : string * nat)
  (s : list (string * nat)) :
  with_count c (FreqDist.insert_desc x s) = with_count c (x :: s).
Proof.
  unfold with_count.
  induction s as [| y r IH]; [reflexivity |]. cbn [FreqDist.insert_desc].
  destruct (Nat.leb_spec (snd y) (snd x)) as [Hle | Hgt]; [reflexivity |].
  cbn [filter] in *. rewrite IH.
  destruct (Nat.eqb_spec (snd x) c) as [Hx | Hx];
    destruct (Nat.eqb_spec (snd y) c) as [Hy | Hy]; try reflexivity.
  lia.
Qed.

Lemma sorted_desc_stable (c : nat) (l : list (string * nat)) :
  with_count c (FreqDist.sorted_desc l) = with_count c l.
Proof.
  induction l as [| x r IH]; [reflexivity |]. cbn [FreqDist.sorted_desc].
  rewrite insert_desc_stable. unfold with_count in *. cbn [filter].
  now rewrite IH.
Qed.

Lemma StronglySorted_app_cross {A : Type} (R : A -> A -> Prop)
  (l1 l2 : list A) (a b : A) :
  StronglySorted R (l1 ++ l2) -> In a l1 -> In b l2 -> R a b.
Proof.
  induction l1 as [| x r IH]; intros Hs Ha Hb; [easy |].
  simpl in Hs. inversion Hs as [| ? ? Hr Hall]; subst.
  destruct Ha as [<- | Ha].
  - rewrite Forall_forall in Hall. apply Hall. apply in_or_app. now right.
  - now apply IH.
Qed.

Lemma firstn_nil_iff {A : Type} (n : nat) (l : list A) :
  firstn (S n) l = [] <-> l = [].
Proof. destruct l; simpl; split; intros H; easy. Qed.

Lemma unpack_zip_star_raises {A B : Type} (pairs : list (A * B)) :
  unpack_zip_star pairs = Raise ValueError <-> pairs = [].
Proof. destruct pairs; simpl; split; intros H; easy. Qed.

Lemma filter_nil_iff {A : Type} (f : A -> bool) (l : list A) :
  filter f l = [] <-> forall x, In x l -> f x = false.
Proof.
  induction l as [| a r IH]; simpl; [easy |].
  destruct (f a) eqn:E; split.
  - discriminate.
  - intros H. specialize (H a (or_introl eq_refl)). congruence.
  - intros H x [<- | Hin]; [assumption | now apply IH].
  - intros H. apply IH. auto.
Qed.

(** The pairs handed to [zip] are entries of the distribution itself: looking
    a repeated word up again returns the count it was selected with. *)
Lemma repeated_pairs_eq (tok : string -> list string) (stop : list string)
  (text : string) :
  repeated_pairs tok stop text =
  firstn 10 (filter (fun wc => 1 <? snd wc)
                    (distribution (preprocess_text tok stop text))).
Proof.
  unfold repeated_pairs, repeated_words, FreqDist.items.
  rewrite of_tokens_distribution.
  set (tokens := preprocess_text tok stop text).
  rewrite <- firstn_map, map_map. f_equal.
  rewrite <- (map_id (filter _ (distribution tokens))) at 2.
  apply map_ext_in. intros [w c] Hin. cbn [fst].
  apply filter_In in Hin. destruct Hin as [Hin _].
  apply distribution_In in Hin. destruct Hin as [_ ->].
  now rewrite get_distribution.
Qed.

(* ================================================================= *)
(** ** Frequency analysis: the charts *)

(** C7.  The top words of a text are the first ten entries (all of them when
    there are fewer than ten distinct tokens) of a rearrangement of the
    frequency distribution that is in descending order of count and keeps
    entries of equal count in the order of the distribution, which is the
    order of first occurrence in the input: a stable sort by descending
    count.  In particular no entry left out has a larger count than an entry
    kept. *)
Theorem top_words_stable_top10 (word_tokenize : string -> list string)
  (stopwords_english : list string) (text : string) :
  let tokens := preprocess_text word_tokenize stopwords_english text in
  let top := most_common_words word_tokenize stopwords_english text in
  exists rest,
    Permutation (top ++ rest) (distribution tokens)
    /\ List.length top = Nat.min 10 (List.length (first_occurrences tokens))
    /\ StronglySorted count_ge (top ++ rest)
    /\ (forall a b, In a top -> In b rest -> snd b <= snd a)
    /\ (forall c, with_count c (top ++ rest) = with_count c (distribution tokens)).
Proof.
  intros tokens top.
  exists (skipn 10 (FreqDist.sorted_desc (distribution tokens))).
  assert (Htop : top = firstn 10 (FreqDist.sorted_desc (distribution tokens))).
  { unfold top, most_common_words, FreqDist.most_common, FreqDist.items.
    now rewrite of_tokens_distribution. }
  rewrite Htop, firstn_skipn.
  repeat split.
  - apply sorted_desc_perm.
  - rewrite length_firstn.
    rewrite (Permutation_length (sorted_desc_perm _)).
    unfold distribution. now rewrite length_map.
  - apply sorted_desc_sorted.
  - intros a b Ha Hb.
    apply (StronglySorted_app_cross count_ge _ _ a b
             (eq_ind_r (StronglySorted count_ge)
                       (sorted_desc_sorted (distribution tokens))
                       (firstn_skipn 10 _)) Ha Hb).
  - intros c. apply sorted_desc_stable.
Qed.

(** C8.  The repeated words of a text, each paired with its count, are
    exactly the entries of the frequency distribution whose count exceeds 1,
    in the iteration order of the distribution, cut after the tenth; a text
    whose tokens are one word four times yields the single entry of that word
    with count 4. *)
Theorem repeated_words_are_counts_above_one
  (word_tokenize : string -> list string) (stopwords_english : list string)
  (text : string) :
  let tokens := preprocess_text word_tokenize stopwords_english text in
  repeated_pairs word_tokenize stopwords_english text =
    firstn 10 (filter (fun wc => 1 <? snd wc) (distribution tokens))
  /\ (forall w, tokens = [w; w; w; w] ->
      repeated_pairs word_tokenize stopwords_english text = [(w, 4)]).
Proof.
  intros tokens. split; [apply repeated_pairs_eq |].
  intros w Hw. rewrite repeated_pairs_eq. fold tokens. rewrite Hw.
  unfold distribution, occurrences. cbn [first_occurrences filter].
  rewrite !String.eqb_refl. cbn [negb filter map count_occ].
  destruct (string_dec w w) as [_ | Hne]; [reflexivity | now destruct Hne].
Qed.

Lemma repeated_words_are_counts_above_one_witness :
  repeated_pairs (fun _ => four_tests) ["the"] "test test test test" =
    [("test", 4)].
Proof.
  apply (proj2 (repeated_words_are_counts_above_one
                  (fun _ => four_tests) ["the"] "test test test test")
               "test").
  reflexivity.
Defined.

(** C10.  [plot_repeated_words] raises the unpacking error exactly when no
    preprocessed token occurs more than once, and [plot_most_common_words]
    raises it exactly when there is no preprocessed token: neither draws an
    empty chart. *)
Theorem plots_raise_unpacking_error (word_tokenize : string -> list string)
  (stopwords_english : list string) (text : string) :
  let tokens := preprocess_text word_tokenize stopwords_english text in
  (plot_repeated_words word_tokenize stopwords_english text = Raise ValueError
   <-> forall w, occurrences tokens w <= 1)
  /\ (plot_most_common_words word_tokenize stopwords_english text
        = Raise ValueError
      <-> tokens = []).
Proof.
  intros tokens. split.
  - unfold plot_repeated_words.
    rewrite unpack_zip_star_raises, repeated_pairs_eq, firstn_nil_iff.
    fold tokens. rewrite filter_nil_iff. split.
    + intros H w. destruct (in_dec string_dec w tokens) as [Hin | Hnin].
      * specialize (H (w, occurrences tokens w)). cbn [snd] in H.
        apply Nat.ltb_ge. apply H. now apply distribution_In.
      * unfold occurrences.
        rewrite (proj1 (count_occ_not_In string_dec tokens w) Hnin). lia.
    + intros H [w c] Hin. apply distribution_In in Hin.
      destruct Hin as [_ ->]. cbn [snd]. apply Nat.ltb_ge. apply H.
  - unfold plot_most_common_words, most_common_words, FreqDist.most_common,
      FreqDist.items.
    rewrite unpack_zip_star_raises, firstn_nil_iff, of_tokens_distribution.
    fold tokens. rewrite <- distribution_nil. split.
    + intros H. apply Permutation_nil. rewrite <- H.
      apply sorted_desc_perm.
    + intros H. now rewrite H.
Qed.

(* ================================================================= *)
(** ** The classifier *)

Lemma ltb_float_lt (x y : Float.t) : Float.ltb x y = true <-> float_lt x y.
Proof.
  destruct x as [a | | |], y as [b | | |]; simpl; try easy.
  destruct (Rlt_dec a b); split; intros H; easy.
Qed.

Lemma likely_not_likely : likely <> not_likely.
Proof. discriminate. Qed.

(** C1.  On two floats the classifier always returns one of the two labels:
    the likely-generated one exactly when the perplexity is below 100 and the
    burstiness is below 1, the other one exactly when that fails. *)
Theorem classifier_thresholds (p b : Float.t) :
  (is_generated_text (PFloat p) (PFloat b) = Ok likely
   <-> float_lt p (Float.Fin 100) /\ float_lt b (Float.Fin 1))
  /\ (is_generated_text (PFloat p) (PFloat b) = Ok not_likely
      <-> ~ (float_lt p (Float.Fin 100) /\ float_lt b (Float.Fin 1))).
Proof.
  unfold is_generated_text, py_lt, bind.
  rewrite <- !ltb_float_lt.
  destruct (Float.ltb p (Float.Fin 100)), (Float.ltb b (Float.Fin 1));
    (split; split; intros H;
     try reflexivity; try (now destruct H); try (now inversion H);
     try (intros [? ?]; discriminate); try (exfalso; apply H; now split)).
Qed.

(** C3, as stated, fails: with a perplexity that is not below 100 the
    burstiness is never looked at, and an undefined burstiness gets the
    not-likely label. *)
Lemma classifier_labels_undefined_burstiness :
  is_generated_text (PFloat (Float.Fin 200)) PNone = Ok not_likely.
Proof.
  unfold is_generated_text, py_lt, bind, Float.ltb.
  destruct (Rlt_dec 200 100) as [H | _]; [lra | reflexivity].
Qed.

(** C3, amended.  An undefined perplexity makes the classifier raise
    [TypeError] whatever the burstiness; with a defined perplexity and an
    undefined burstiness it raises [TypeError] when the perplexity is below
    100 and returns the not-likely label otherwise. *)
Theorem classifier_on_undefined (b : pyval) (x : Float.t) :
  is_generated_text PNone b = Raise TypeError
  /\ is_generated_text (PFloat x) PNone =
       if Float.ltb x (Float.Fin 100) then Raise TypeError else Ok not_likely.
Proof.
  split; [reflexivity |].
  unfold is_generated_text, py_lt, bind.
  now destruct (Float.ltb x (Float.Fin 100)).
Qed.

(* ================================================================= *)
(** ** The preprocessor *)

(** What the filter of [preprocess_text] does guarantee: every token kept
    comes from the tokenizer, is not a stopword, and is not a substring of
    the punctuation string. *)
Lemma preprocess_text_kept (tok : string -> list string) (stop : list string)
  (text token : string) :
  In token (preprocess_text tok stop text) <->
  In token (tok (Str.lower text))
  /\ ~ In token stop
  /\ Str.contains Str.punctuation token = false.
Proof.
  unfold preprocess_text. rewrite filter_In, andb_true_iff, !negb_true_iff.
  now rewrite mem_false.
Qed.

(** C9 fails on the code: the punctuation test is a substring test against
    the punctuation string, so a token of several punctuation characters that
    are not adjacent in that string, such as the ellipsis, is kept.  Here the
    tokenizer splits the lowercased text into the word and the ellipsis, as
    NLTK does. *)
Theorem preprocess_keeps_ellipsis (word_tokenize : string -> list string)
  (stopwords_english : list string) :
  word_tokenize "wait..." = ["wait"; "..."] ->
  Str.mem "wait" stopwords_english = false ->
  Str.mem "..." stopwords_english = false ->
  preprocess_text word_tokenize stopwords_english "Wait..." = ["wait"; "..."]
  /\ Str.punctuation_only "..." = true.
Proof.
  intros Htok Hw He. split; [| reflexivity].
  unfold preprocess_text.
  change (Str.lower "Wait...") with "wait...". rewrite Htok.
  cbn [filter]. rewrite Hw, He. reflexivity.
Qed.

Lemma preprocess_keeps_ellipsis_witness :
  preprocess_text (fun _ => ["wait"; "..."]) ["the"; "a"] "Wait..."
    = ["wait"; "..."]
  /\ Str.punctuation_only "..." = true.
Proof.
  apply (preprocess_keeps_ellipsis (fun _ => ["wait"; "..."]) ["the"; "a"]);
    reflexivity.
Defined.

(* ================================================================= *)
(** ** Burstiness *)

Lemma fold_left_Rplus (xs : list R) (a : R) :
  fold_left Rplus xs a = (a + fold_right Rplus 0 xs)%R.
Proof.
  revert a. induction xs as [| x r IH]; intros a; simpl; [lra |].
  rewrite IH. lra.
Qed.

Lemma Rsum_fold_right (xs : list R) : Rsum xs = fold_right Rplus 0%R xs.
Proof. unfold Rsum. rewrite fold_left_Rplus. lra. Qed.

Lemma fold_left_add (xs : list nat) (a : nat) :
  fold_left Nat.add xs a = a + fold_right Nat.add 0 xs.
Proof.
  revert a. induction xs as [| x r IH]; intros a; simpl; [lia |].
  rewrite IH. lia.
Qed.

Lemma INR_int_sum (xs : list nat) :
  INR (int_sum xs) = fold_right Rplus 0%R (map INR xs).
Proof.
  unfold int_sum. rewrite fold_left_add. cbn [Nat.add].
  induction xs as [| c r IH]; [reflexivity |]. cbn [fold_right map].
  now rewrite plus_INR, IH.
Qed.

Lemma distribution_total_pos (x : string) (r : list string) :
  1 <= int_sum (FreqDist.values (distribution (x :: r))).
Proof.
  unfold int_sum. rewrite fold_left_add.
  unfold FreqDist.values, distribution, occurrences.
  cbn [first_occurrences map fold_right snd count_occ].
  destruct (string_dec x x) as [_ | Hne]; [lia | now destruct Hne].
Qed.

Lemma true_div_ok (x y : R) :
  y <> 0%R -> Float.true_div x y = Ok (x / y)%R.
Proof.
  intros Hy. unfold Float.true_div.
  destruct (Req_dec_T y 0); [contradiction | reflexivity].
Qed.

(** C4.  When the frequency distribution of the text is not empty the
    burstiness score is the population variance of the per-token counts
    divided by the square of their mean; when it is empty no score is
    returned, zero or other: the computation raises a division error. *)
Theorem burstiness_is_variance_over_squared_mean
  (word_tokenize : string -> list string) (stopwords_english : list string)
  (text : string) :
  let tokens := preprocess_text word_tokenize stopwords_english text in
  let counts := map snd (distribution tokens) in
  match tokens with
  | [] =>
      calculate_burstiness word_tokenize stopwords_english text
      = Raise ZeroDivisionError
  | _ :: _ =>
      calculate_burstiness word_tokenize stopwords_english text
      = Ok (Float.Fin (spec_burstiness counts))
  end.
Proof.
  intros tokens counts. unfold calculate_burstiness.
  rewrite of_tokens_distribution. fold tokens.
  destruct tokens as [| x r] eqn:E.
  - cbn. unfold Float.true_div.
    destruct (Req_dec_T 0 0) as [_ | Hne]; [reflexivity | now destruct Hne].
  - set (d := distribution (x :: r)) in *.
    assert (Hlen : (0 < INR (FreqDist.len d))%R).
    { apply lt_0_INR. unfold FreqDist.len, d. simpl. lia. }
    assert (HN : (0 < INR (int_sum (FreqDist.values d)))%R).
    { apply lt_0_INR. pose proof (distribution_total_pos x r) as H.
      fold d in H. lia. }
    assert (Hcounts : FreqDist.values d = counts) by reflexivity.
    assert (Hl : FreqDist.len d = List.length counts).
    { unfold counts, FreqDist.len. now rewrite length_map. }
    assert (Havg : (INR (int_sum (FreqDist.values d)) / INR (FreqDist.len d))%R
                   = spec_mean counts).
    { unfold spec_mean. now rewrite INR_int_sum, Hcounts, Hl. }
    assert (Hpos : (0 < spec_mean counts)%R).
    { rewrite <- Havg. now apply Rdiv_lt_0_compat. }
    rewrite true_div_ok by lra. cbn [bind]. rewrite Havg.
    rewrite true_div_ok by lra. cbn [bind].
    rewrite true_div_ok by (apply pow_nonzero; lra). cbn [bind].
    unfold spec_burstiness, spec_variance.
    rewrite Rsum_fold_right, Hcounts, Hl.
    do 2 f_equal. f_equal; [| simpl; lra]. f_equal. f_equal.
    apply map_ext. intros c. simpl. lra.
Qed.

(* ================================================================= *)
(** ** n-grams *)

Lemma split_last_snoc (l : list string) (w : string) :
  split_last (l ++ [w]) = Some (l, w).
Proof.
  induction l as [| x r IH]; [reflexivity |]. simpl. now rewrite IH.
Qed.

Lemma split_last_some (g : ngram) :
  g <> [] -> exists ctx w, split_last g = Some (ctx, w).
Proof.
  intros Hg. destruct (exists_last Hg) as [l [w ->]].
  exists l, w. apply split_last_snoc.
Qed.

Lemma windows_by_position (n : nat) (sequence : list string) :
  1 <= n -> windows n sequence = ngrams_by_position sequence n.
Proof.
  intros Hn. unfold ngrams_by_position.
  induction sequence as [| x r IH]; cbn [windows].
  - replace (List.length (@nil string) + 1 - n) with 0 by (cbn [List.length]; lia).
    reflexivity.
  - destruct (Nat.leb_spec n (List.length (x :: r))) as [Hle | Hgt].
    + replace (List.length (x :: r) + 1 - n)
        with (S (List.length r + 1 - n)) by (cbn [List.length] in *; lia).
      cbn [seq map skipn]. f_equal.
      rewrite IH, <- seq_shift, map_map. reflexivity.
    + replace (List.length (x :: r) + 1 - n) with 0 by (cbn [List.length] in *; lia).
      reflexivity.
Qed.

Lemma ngrams_by_position_eq (sequence : list string) (n : nat) :
  1 <= n -> ngrams sequence n = ngrams_by_position sequence n.
Proof.
  intros Hn. destruct n as [| k]; [lia |].
  unfold ngrams. now apply windows_by_position.
Qed.

Lemma ngrams_length (sequence : list string) (n : nat) :
  1 <= n -> List.length (ngrams sequence n) = List.length sequence + 1 - n.
Proof.
  intros Hn. rewrite ngrams_by_position_eq by assumption.
  unfold ngrams_by_position. now rewrite length_map, length_seq.
Qed.

Lemma ngrams_nonempty (sequence : list string) (n : nat) :
  1 <= n -> Forall (fun g => g <> []) (ngrams sequence n).
Proof.
  intros Hn. rewrite ngrams_by_position_eq by assumption.
  unfold ngrams_by_position. apply Forall_forall. intros g Hg.
  apply in_map_iff in Hg. destruct Hg as [i [<- Hi]].
  apply in_seq in Hi. intros Heq.
  apply (f_equal (@List.length string)) in Heq.
  rewrite length_firstn, length_skipn in Heq. simpl in Heq. lia.
Qed.

Lemma windows_1 (sequence : list string) :
  windows 1 sequence = map (fun c => [c]) sequence.
Proof.
  induction sequence as [| x r IH]; [reflexivity |].
  cbn [windows map]. rewrite IH.
  replace (1 <=? List.length (x :: r)) with true; [reflexivity |].
  symmetry. apply Nat.leb_le. simpl. lia.
Qed.

(* ================================================================= *)
(** ** Sums of log-scores *)

Lemma ln_2_pos : (0 < ln 2)%R.
Proof. pose proof ln_lt_2. lra. Qed.

Lemma sum_logs_from_neginf (ps : list R) :
  fold_left Float.add (map log_base2 ps) Float.NegInf = Float.NegInf.
Proof.
  induction ps as [| p r IH]; [reflexivity |]. cbn [map fold_left].
  unfold log_base2 at 2. destruct (Req_dec_T p 0); exact IH.
Qed.

Lemma sum_logs_with_zero (ps : list R) (a : R) :
  Exists (fun p => p = 0%R) ps ->
  fold_left Float.add (map log_base2 ps) (Float.Fin a) = Float.NegInf.
Proof.
  intros Hex. revert a.
  induction Hex as [p r Hp | p r Hex IH]; intros a; cbn [map fold_left].
  - unfold log_base2 at 2. destruct (Req_dec_T p 0); [| contradiction].
    apply sum_logs_from_neginf.
  - unfold log_base2 at 2. destruct (Req_dec_T p 0).
    + apply sum_logs_from_neginf.
    + apply IH.
Qed.

Lemma sum_logs_nonzero (ps : list R) (a : R) :
  Forall (fun p => p <> 0%R) ps ->
  fold_left Float.add (map log_base2 ps) (Float.Fin a) =
  Float.Fin (a + fold_right Rplus 0 (map ln ps) / ln 2)%R.
Proof.
  intros Hall. revert a.
  induction Hall as [| p r Hp Hall IH]; intros a; cbn [map fold_left fold_right].
  - f_equal. unfold Rdiv. lra.
  - unfold log_base2 at 2. destruct (Req_dec_T p 0); [contradiction |].
    cbn [Float.add]. rewrite IH. f_equal. pose proof ln_2_pos. field. lra.
Qed.

Lemma Rprod_zero (ps : list R) :
  Rprod ps = 0%R <-> Exists (fun p => p = 0%R) ps.
Proof.
  induction ps as [| p r IH]; cbn [Rprod fold_right].
  - split; [lra | intros H; inversion H].
  - fold (Rprod r). split.
    + intros H. apply Rmult_integral in H. destruct H as [H | H].
      * now constructor.
      * apply Exists_cons_tl. now apply IH.
    + intros H. inversion H as [? ? Hp | ? ? Hr]; subst.
      * lra.
      * apply IH in Hr. rewrite Hr. lra.
Qed.

Lemma Rprod_nonzero (ps : list R) :
  Rprod ps <> 0%R <-> Forall (fun p => p <> 0%R) ps.
Proof.
  rewrite Rprod_zero. rewrite <- Forall_Exists_neg. reflexivity.
Qed.

Lemma ln_Rprod (ps : list R) :
  Forall (fun p => 0 < p)%R ps ->
  (0 < Rprod ps)%R /\ ln (Rprod ps) = fold_right Rplus 0%R (map ln ps).
Proof.
  induction 1 as [| p r Hp Hall [IHpos IHln]]; cbn [Rprod fold_right map].
  - split; [lra | apply ln_1].
  - fold (Rprod r). split.
    + now apply Rmult_lt_0_compat.
    + rewrite ln_mult by assumption. now rewrite IHln.
Qed.

(* ================================================================= *)
(** ** Scores *)

Lemma freq_nonneg (c : NgramCounter.t) (context : list string) (w : string) :
  (0 <= NgramCounter.freq c context w)%R.
Proof.
  unfold NgramCounter.freq. destruct (NgramCounter.total c context) eqn:E.
  - lra.
  - apply Rmult_le_pos; [apply pos_INR |].
    left. apply Rinv_0_lt_compat. apply lt_0_INR. lia.
Qed.

Lemma ngram_probability_nonneg (m : LanguageModel) (g : ngram) :
  (0 <= ngram_probability m g)%R.
Proof.
  unfold ngram_probability. destruct (split_last g) as [[ctx w] |]; [| lra].
  apply freq_nonneg.
Qed.

Lemma logscores_ok (m : LanguageModel) (grams : list ngram) :
  Forall (fun g => g <> []) grams ->
  logscores m grams = Ok (map log_base2 (map (ngram_probability m) grams)).
Proof.
  induction 1 as [| g r Hg Hall IH]; [reflexivity |]. cbn [logscores map].
  unfold ngram_probability at 1.
  destruct (split_last_some g Hg) as [ctx [w ->]].
  rewrite IH. reflexivity.
Qed.

(** The value of [perplexity] on a non-empty list of non-empty n-grams, in
    terms of the product of their probabilities. *)
Lemma perplexity_value (m : LanguageModel) (grams : list ngram) :
  Forall (fun g => g <> []) grams ->
  grams <> [] ->
  perplexity m grams =
  if Req_dec_T (Rprod (map (ngram_probability m) grams)) 0
  then Ok Float.PosInf
  else Ok (Float.Fin (Rpower (Rprod (map (ngram_probability m) grams))
                             (- / INR (List.length grams)))).
Proof.
  intros Hne Hgrams. unfold perplexity, entropy, mean.
  rewrite logscores_ok by assumption. cbn [bind].
  rewrite !length_map. set (ps := map (ngram_probability m) grams).
  destruct grams as [| g0 r]; [contradiction |].
  cbn [List.length]. unfold Float.sum.
  destruct (Req_dec_T (Rprod ps) 0) as [Hz | Hnz].
  - rewrite sum_logs_with_zero by now apply Rprod_zero. reflexivity.
  - assert (Hall : Forall (fun p => p <> 0%R) ps) by now apply Rprod_nonzero.
    rewrite sum_logs_nonzero by assumption.
    cbn [Float.div_int bind Float.neg Float.pow2]. do 2 f_equal.
    assert (Hpos : Forall (fun p => 0 < p)%R ps).
    { apply Forall_forall. intros p Hp.
      pose proof (proj1 (Forall_forall _ _) Hall p Hp) as Hp0.
      unfold ps in Hp. apply in_map_iff in Hp. destruct Hp as [g [<- _]].
      pose proof (ngram_probability_nonneg m g). lra. }
    destruct (ln_Rprod ps Hpos) as [_ Hln].
    unfold Rpower. rewrite Hln. f_equal.
    pose proof ln_2_pos.
    assert (Hk : (0 < INR (S (List.length r)))%R) by (apply lt_0_INR; lia).
    field. split; lra.
Qed.

Lemma perplexity_positive (m : LanguageModel) (grams : list ngram) :
  Forall (fun g => g <> []) grams ->
  grams <> [] ->
  exists x,
    perplexity m grams = Ok x
    /\ float_lt (Float.Fin 0) x
    /\ (finite x <-> Forall (fun g => ngram_probability m g <> 0%R) grams).
Proof.
  intros Hne Hgrams. rewrite perplexity_value by assumption.
  destruct (Req_dec_T _ 0) as [Hz | Hnz].
  - exists Float.PosInf. repeat split; try easy.
    intros Hall. exfalso. apply Rprod_nonzero in Hz; [assumption |].
    now rewrite Forall_map.
  - eexists. repeat split.
    + cbn. unfold Rpower. apply exp_pos.
    + intros _. apply Rprod_nonzero in Hnz. now rewrite Forall_map in Hnz.
Qed.

Lemma padded_length (tokens : list string) :
  List.length (["<s>"] ++ tokens ++ ["</s>"]) = List.length tokens + 2.
Proof. cbn [app List.length]. rewrite length_app. simpl. lia. Qed.

Lemma queried_ngrams_facts (m : LanguageModel) (tokens : list string) :
  1 <= order m <= List.length tokens + 2 ->
  queried_ngrams m tokens
    = ngrams_by_position (["<s>"] ++ tokens ++ ["</s>"]) (order m)
  /\ List.length (queried_ngrams m tokens)
     = List.length tokens + 3 - order m
  /\ queried_ngrams m tokens <> []
  /\ Forall (fun g => g <> []) (queried_ngrams m tokens).
Proof.
  intros [Hlo Hhi]. unfold queried_ngrams.
  assert (Hlen : List.length (ngrams (["<s>"] ++ tokens ++ ["</s>"]) (order m))
                 = List.length tokens + 3 - order m).
  { rewrite ngrams_length, padded_length by assumption. lia. }
  repeat split.
  - now apply ngrams_by_position_eq.
  - exact Hlen.
  - intros Heq. rewrite Heq in Hlen. simpl in Hlen. lia.
  - now apply ngrams_nonempty.
Qed.

(* ================================================================= *)
(** ** The model trained by main *)

Lemma flat_map_pad_1 (sents : list (list string)) :
  flat_map (fun sent => pad_both_ends sent 1) sents = List.concat sents.
Proof.
  induction sents as [| s r IH]; [reflexivity |]. cbn [flat_map List.concat].
  rewrite IH. unfold pad_both_ends. cbn [Nat.sub repeat app].
  now rewrite app_nil_r.
Qed.

Lemma train_order (corpus : list string) : order (train corpus) = 1.
Proof. reflexivity. Qed.

Lemma train_vocab (corpus : list string) :
  vocab (train corpus) =
  {| Vocabulary.counts := FreqDist.of_tokens (corpus_chars corpus);
     Vocabulary.cutoff := 1 |}.
Proof.
  unfold train, padded_everygram_pipeline, fit, MLE. cbn.
  unfold Vocabulary.update. cbn. f_equal.
  rewrite flat_map_pad_1. unfold corpus_chars, FreqDist.of_tokens.
  now rewrite flat_map_concat_map.
Qed.

Lemma unigrams_of_sentences (f : string -> string)
  (sents : list (list string)) :
  flat_map (map (map f))
           (map (fun sent => everygrams (pad_both_ends sent 1) 1) sents)
  = map (fun c => [f c]) (List.concat sents).
Proof.
  induction sents as [| s r IH]; [reflexivity |].
  cbn [map flat_map List.concat]. rewrite IH, map_app. f_equal.
  unfold everygrams, pad_both_ends. cbn [Nat.sub repeat app seq flat_map].
  rewrite !app_nil_r. unfold ngrams. rewrite windows_1, !map_map.
  reflexivity.
Qed.

Lemma train_counts (corpus : list string) :
  counts (train corpus) =
  map (fun c => [Vocabulary.lookup (vocab (train corpus)) c])
      (corpus_chars corpus).
Proof.
  rewrite train_vocab.
  unfold train, padded_everygram_pipeline, fit, NgramCounter.update.
  cbn [counts MLE vocab Vocabulary.is_empty Vocabulary.empty
       Vocabulary.counts app].
  rewrite <- flat_map_concat_map, unigrams_of_sentences.
  unfold Vocabulary.update. cbn [Vocabulary.counts Vocabulary.cutoff
                                 Vocabulary.empty].
  rewrite flat_map_pad_1. unfold corpus_chars, FreqDist.of_tokens.
  now rewrite flat_map_concat_map.
Qed.

Lemma corpus_chars_length (corpus : list string) (c : string) :
  In c (corpus_chars corpus) -> String.length c = 1.
Proof.
  unfold corpus_chars, Str.chars. rewrite in_flat_map.
  intros [w [_ Hc]]. apply in_map_iff in Hc. now destruct Hc as [a [<- _]].
Qed.

Lemma train_lookup_marker (corpus : list string) :
  Vocabulary.lookup (vocab (train corpus)) "<s>" = Vocabulary.unk_label.
Proof.
  rewrite train_vocab. unfold Vocabulary.lookup, Vocabulary.contains,
    Vocabulary.getitem. cbn [Vocabulary.counts Vocabulary.cutoff].
  change (String.eqb "<s>" Vocabulary.unk_label) with false. cbv iota.
  rewrite of_tokens_distribution, get_distribution. unfold occurrences.
  rewrite (proj1 (count_occ_not_In string_dec (corpus_chars corpus) "<s>"));
    [reflexivity |].
  intros Hin. apply corpus_chars_length in Hin. discriminate.
Qed.

Lemma train_lookup_char (corpus : list string) (c : string) :
  In c (corpus_chars corpus) ->
  Vocabulary.lookup (vocab (train corpus)) c = c.
Proof.
  intros Hin. rewrite train_vocab.
  unfold Vocabulary.lookup, Vocabulary.contains, Vocabulary.getitem.
  cbn [Vocabulary.counts Vocabulary.cutoff].
  destruct (String.eqb c Vocabulary.unk_label); [reflexivity |].
  rewrite of_tokens_distribution, get_distribution. unfold occurrences.
  pose proof (proj1 (count_occ_In string_dec (corpus_chars corpus) c) Hin).
  destruct (Nat.leb_spec 1 (count_occ string_dec (corpus_chars corpus) c));
    [reflexivity | lia].
Qed.

(** The unknown label is never counted, so its relative frequency is 0. *)
Lemma train_unk_unseen (corpus : list string) :
  unmasked_score (train corpus) Vocabulary.unk_label [] = 0%R.
Proof.
  unfold unmasked_score, NgramCounter.freq.
  assert (Hc : NgramCounter.count (counts (train corpus)) []
                                  Vocabulary.unk_label = 0).
  { unfold NgramCounter.count. apply count_occ_not_In.
    rewrite train_counts, in_map_iff. intros [c [Heq Hin]].
    rewrite train_lookup_char in Heq by assumption.
    apply corpus_chars_length in Hin. inversion Heq; subst. discriminate. }
  rewrite Hc. destruct (NgramCounter.total _ _); [reflexivity |].
  simpl. lra.
Qed.

(** Under the model trained by [main] the start marker is out of vocabulary
    and has probability 0, so every text has infinite perplexity. *)
Lemma train_perplexity_infinite (tok : string -> list string)
  (stop : list string) (corpus : list string) (text : string) :
  calculate_perplexity tok stop text (train corpus) = Ok Float.PosInf.
Proof.
  unfold calculate_perplexity. rewrite train_order.
  set (padded := ["<s>"] ++ _ ++ ["</s>"]).
  rewrite perplexity_value.
  - destruct (Req_dec_T _ 0) as [_ | Hnz]; [reflexivity |].
    exfalso. apply Hnz. apply Rprod_zero.
    unfold padded, ngrams. rewrite windows_1. cbn [app map].
    apply Exists_cons_hd.
    unfold ngram_probability, score. cbn [split_last map].
    rewrite train_lookup_marker. apply train_unk_unseen.
  - apply ngrams_nonempty. lia.
  - unfold padded, ngrams. rewrite windows_1. discriminate.
Qed.

Lemma calculate_burstiness_no_tokens (tok : string -> list string)
  (stop : list string) (text : string) :
  preprocess_text tok stop text = [] ->
  calculate_burstiness tok stop text = Raise ZeroDivisionError.
Proof.
  intros H. unfold calculate_burstiness. rewrite H. cbn.
  unfold Float.true_div.
  destruct (Req_dec_T 0 0) as [_ | Hne]; [reflexivity | now destruct Hne].
Qed.

(** What [main] shows for a non-empty text without any token left after
    preprocessing: the perplexity, then the division error of the
    burstiness. *)
Lemma text_analysis_no_tokens (tok : string -> list string)
  (stop : list string) (corpus : list string) (text : string) :
  text <> EmptyString ->
  preprocess_text tok stop text = [] ->
  text_analysis tok stop corpus text =
  ([WriteFloat "Perplexity:" Float.PosInf], Some ZeroDivisionError).
Proof.
  intros Htext Htok. unfold text_analysis.
  destruct (String.eqb_spec text EmptyString); [contradiction |].
  rewrite train_perplexity_infinite.
  now rewrite calculate_burstiness_no_tokens.
Qed.

(* ================================================================= *)
(** ** Perplexity of a text *)

Lemma train_lookup_not_a_character (corpus : list string) (w : string) :
  String.length w <> 1 ->
  Vocabulary.lookup (vocab (train corpus)) w = Vocabulary.unk_label.
Proof.
  intros Hlen. rewrite train_vocab.
  unfold Vocabulary.lookup, Vocabulary.contains, Vocabulary.getitem.
  cbn [Vocabulary.counts Vocabulary.cutoff].
  destruct (String.eqb_spec w Vocabulary.unk_label) as [-> | Hne];
    [reflexivity |].
  rewrite of_tokens_distribution, get_distribution. unfold occurrences.
  rewrite (proj1 (count_occ_not_In string_dec (corpus_chars corpus) w));
    [reflexivity |].
  intros Hin. apply corpus_chars_length in Hin. contradiction.
Qed.

(** Under the model trained by [main] a unigram whose word is not a single
    character has probability 0. *)
Lemma train_probability_not_a_character (corpus : list string) (w : string) :
  String.length w <> 1 ->
  ngram_probability (train corpus) [w] = 0%R.
Proof.
  intros Hlen. unfold ngram_probability, score. cbn [split_last map].
  rewrite train_lookup_not_a_character by assumption.
  apply train_unk_unseen.
Qed.

(** The maximum-likelihood score has no smoothing: an n-gram that was never
    counted has probability 0. *)
Lemma uncounted_ngram_has_probability_zero (c : NgramCounter.t)
  (ctx : list string) (w : string) :
  NgramCounter.count c ctx w = 0 -> NgramCounter.freq c ctx w = 0%R.
Proof.
  intros Hc. unfold NgramCounter.freq. rewrite Hc.
  destruct (NgramCounter.total c ctx); [reflexivity | simpl; lra].
Qed.

(** C2 holds of the intended pipeline and fails on the code.  The text
    hello world is analysed as [main] does, with a reference corpus that
    contains both of its words: preprocessing leaves two tokens, every one of
    the four n-grams queried (the two markers and the two words) receives
    probability exactly 0 from the trained model, and the computed perplexity
    is plus infinity, not a finite number. *)
Theorem perplexity_infinite_for_known_words :
  let tok := fun _ : string => ["hello"; "world"] in
  let m := train ["hello"; "world"] in
  preprocess_text tok [] "hello world" = ["hello"; "world"]
  /\ queried_ngrams m ["hello"; "world"]
     = [["<s>"]; ["hello"]; ["world"]; ["</s>"]]
  /\ Forall (fun g => ngram_probability m g = 0%R)
            (queried_ngrams m ["hello"; "world"])
  /\ calculate_perplexity tok [] "hello world" m = Ok Float.PosInf
  /\ ~ finite Float.PosInf.
Proof.
  intros tok m. split; [reflexivity |]. split; [reflexivity |].
  split; [| split; [apply train_perplexity_infinite | easy]].
  change (queried_ngrams m ["hello"; "world"])
    with [["<s>"]; ["hello"]; ["world"]; ["</s>"]].
  repeat constructor; apply train_probability_not_a_character; discriminate.
Qed.

(** For a model whose order is at least 1 and at most the length of the
    padded token sequence, the perplexity of a text is a float strictly
    greater than 0, and it is finite exactly when no queried n-gram has
    probability zero. *)
Lemma perplexity_positive_finite_iff_no_zero
  (word_tokenize : string -> list string) (stopwords_english : list string)
  (text : string) (m : LanguageModel) :
  let tokens := preprocess_text word_tokenize stopwords_english text in
  1 <= order m <= List.length tokens + 2 ->
  exists x,
    calculate_perplexity word_tokenize stopwords_english text m = Ok x
    /\ float_lt (Float.Fin 0) x
    /\ (finite x <->
        Forall (fun g => ngram_probability m g <> 0%R)
               (queried_ngrams m tokens)).
Proof.
  intros tokens Horder.
  destruct (queried_ngrams_facts m tokens Horder) as (_ & _ & Hne & Hall).
  exact (perplexity_positive m (queried_ngrams m tokens) Hall Hne).
Qed.

(** C6, as stated, fails: for a text one of whose n-grams has probability 0
    the product P is 0 and the result is plus infinity, which is not the
    float P^(-1/N). *)
Lemma perplexity_not_a_power_at_zero_probability :
  let m := train ["the"; "cat"] in
  let grams := queried_ngrams m ["hello"] in
  let P := Rprod (map (ngram_probability m) grams) in
  let N := List.length grams in
  calculate_perplexity (fun _ => ["hello"]) [] "hello" m = Ok Float.PosInf
  /\ calculate_perplexity (fun _ => ["hello"]) [] "hello" m
     <> Ok (Float.Fin (Rpower P (- / INR N))).
Proof.
  intros m grams P N.
  rewrite (train_perplexity_infinite (fun _ => ["hello"]) [] ["the"; "cat"]).
  split; [reflexivity | discriminate].
Qed.

(** C6, amended.  For a model whose order is at least 1 and at most the
    length of the padded token sequence, the token sequence is put between
    one start and one end marker, the N n-grams of the model's order are the
    windows of the padded sequence at every position, and with P the product
    of their conditional probabilities the result is P^(-1/N) when P is not
    zero and plus infinity when it is. *)
Theorem perplexity_is_inverse_geometric_mean
  (word_tokenize : string -> list string) (stopwords_english : list string)
  (text : string) (m : LanguageModel) :
  let tokens := preprocess_text word_tokenize stopwords_english text in
  let padded := ["<s>"] ++ tokens ++ ["</s>"] in
  let grams := ngrams_by_position padded (order m) in
  let N := List.length grams in
  let P := Rprod (map (ngram_probability m) grams) in
  1 <= order m <= List.length tokens + 2 ->
  N = List.length tokens + 3 - order m
  /\ calculate_perplexity word_tokenize stopwords_english text m =
       if Req_dec_T P 0
       then Ok Float.PosInf
       else Ok (Float.Fin (Rpower P (- / INR N))).
Proof.
  intros tokens padded grams N P Horder.
  destruct (queried_ngrams_facts m tokens Horder) as (Heq & Hlen & Hne & Hall).
  unfold N, P, grams, padded. rewrite <- Heq. split; [exact Hlen |].
  exact (perplexity_value m (queried_ngrams m tokens) Hall Hne).
Qed.

Lemma perplexity_is_inverse_geometric_mean_witness :
  let padded := ["<s>"; "hello"; "</s>"] in
  let grams := ngrams_by_position padded 1 in
  let P := Rprod (map (ngram_probability hello_model) grams) in
  List.length grams = 3
  /\ calculate_perplexity (fun _ => ["hello"]) ["the"] "hello" hello_model =
       if Req_dec_T P 0
       then Ok Float.PosInf
       else Ok (Float.Fin (Rpower P (- / INR (List.length grams)))).
Proof.
  apply (perplexity_is_inverse_geometric_mean
           (fun _ => ["hello"]) ["the"] "hello" hello_model).
  simpl. lia.
Defined.

(* ================================================================= *)
(** ** Texts without tokens *)

Lemma markers_model_probability (w : string) :
  w = "<s>" \/ w = "</s>" ->
  ngram_probability markers_model [w] = (/ 2)%R.
Proof.
  intros [-> | ->];
    unfold ngram_probability, score, unmasked_score, NgramCounter.freq;
    cbn; lra.
Qed.

Lemma Rpower_quarter : Rpower (/ 2 * (/ 2 * 1)) (- / INR 2) = 2%R.
Proof.
  replace (/ 2 * (/ 2 * 1))%R with (/ (2 * 2))%R by lra.
  unfold Rpower. rewrite ln_Rinv by lra. rewrite ln_mult by lra.
  replace (- / INR 2 * - (ln 2 + ln 2))%R with (ln 2).
  - apply exp_ln. lra.
  - simpl. lra.
Qed.

(** C5, as stated, fails: the text made of one stopword has no token left,
    and under a model that knows the two boundary markers its perplexity is
    the number 2, computed from the markers alone. *)
Lemma perplexity_of_stopword_text_is_a_number :
  preprocess_text (fun _ => ["the"]) ["the"] "the" = []
  /\ calculate_perplexity (fun _ => ["the"]) ["the"] "the" markers_model
     = Ok (Float.Fin 2).
Proof.
  split; [reflexivity |].
  unfold calculate_perplexity.
  change (preprocess_text (fun _ => ["the"]) ["the"] "the") with (@nil string).
  change (ngrams (["<s>"] ++ [] ++ ["</s>"]) (order markers_model))
    with [["<s>"]; ["</s>"]].
  rewrite perplexity_value; [| repeat constructor; discriminate | discriminate].
  cbn [map Rprod fold_right List.length].
  rewrite !markers_model_probability by auto.
  destruct (Req_dec_T _ 0) as [Hz | _]; [lra |].
  now rewrite Rpower_quarter.
Qed.

(** C5, amended.  For a text whose preprocessing leaves no token,
    [calculate_burstiness] returns no number and raises the division error,
    whereas [calculate_perplexity] returns the perplexity the model gives to
    the n-grams of the two boundary markers alone, which for a model of order
    1 or 2 is a float greater than 0. *)
Theorem statistics_without_tokens
  (word_tokenize : string -> list string) (stopwords_english : list string)
  (text : string) (m : LanguageModel) :
  preprocess_text word_tokenize stopwords_english text = [] ->
  1 <= order m <= 2 ->
  calculate_burstiness word_tokenize stopwords_english text
    = Raise ZeroDivisionError
  /\ calculate_perplexity word_tokenize stopwords_english text m
     = perplexity m (ngrams ["<s>"; "</s>"] (order m))
  /\ exists x,
       calculate_perplexity word_tokenize stopwords_english text m = Ok x
       /\ float_lt (Float.Fin 0) x.
Proof.
  intros Htok Horder. split; [now apply calculate_burstiness_no_tokens |].
  split.
  - unfold calculate_perplexity. now rewrite Htok.
  - assert (Hb : 1 <= order m <= List.length (@nil string) + 2)
      by (cbn [List.length]; lia).
    destruct (queried_ngrams_facts m [] Hb) as (_ & _ & Hne & Hall).
    destruct (perplexity_positive m _ Hall Hne) as [x [Hx [Hpos _]]].
    exists x. split; [| exact Hpos].
    unfold calculate_perplexity. rewrite Htok. exact Hx.
Qed.

Lemma statistics_without_tokens_witness :
  calculate_burstiness (fun _ => ["the"]) ["the"] "the"
    = Raise ZeroDivisionError
  /\ calculate_perplexity (fun _ => ["the"]) ["the"] "the" markers_model
     = perplexity markers_model (ngrams ["<s>"; "</s>"] 1)
  /\ exists x,
       calculate_perplexity (fun _ => ["the"]) ["the"] "the" markers_model
         = Ok x
       /\ float_lt (Float.Fin 0) x.
Proof.
  apply (statistics_without_tokens
           (fun _ => ["the"]) ["the"] "the" markers_model).
  - reflexivity.
  - simpl. lia.
Defined.

(* ================================================================= *)
(** ** More on the frequency distribution *)

Lemma get_incr (d : FreqDist.t) (w v : string) :
  FreqDist.get (FreqDist.incr w d) v =
  FreqDist.get d v + (if String.eqb w v then 1 else 0).
Proof.
  induction d as [| [k c] r IH]; cbn [FreqDist.incr FreqDist.get].
  - rewrite Nat.add_0_l. reflexivity.
  - destruct (String.eqb_spec k w) as [-> | Hkw]; cbn [FreqDist.get].
    + destruct (String.eqb_spec w v); lia.
    + destruct (String.eqb_spec k v) as [-> | Hkv]; [| exact IH].
      destruct (String.eqb_spec w v) as [-> | _]; [contradiction | lia].
Qed.

Lemma int_sum_cons (x : nat) (xs : list nat) :
  int_sum (x :: xs) = x + int_sum xs.
Proof.
  unfold int_sum. cbn [fold_left]. rewrite !fold_left_add. lia.
Qed.

Lemma values_incr (w : string) (d : FreqDist.t) :
  int_sum (FreqDist.values (FreqDist.incr w d))
  = S (int_sum (FreqDist.values d)).
Proof.
  unfold FreqDist.values.
  induction d as [| [k c] r IH]; cbn [FreqDist.incr map snd].
  - reflexivity.
  - destruct (String.eqb k w); cbn [map snd]; rewrite !int_sum_cons.
    + lia.
    + rewrite IH. lia.
Qed.

(** X1.  Counting one more token raises the count of that token by one and
    leaves every other count alone, whatever the distribution; hence the
    count read back from the distribution of a token sequence is the number
    of occurrences of the word in the sequence, 0 for an absent word. *)
Theorem freqdist_lookup_counts_occurrences (d : FreqDist.t)
  (tokens : list string) (w v : string) :
  FreqDist.get (FreqDist.incr w d) v
    = FreqDist.get d v + (if String.eqb w v then 1 else 0)
  /\ FreqDist.get (FreqDist.of_tokens tokens) v = occurrences tokens v
  /\ (FreqDist.get (FreqDist.of_tokens tokens) v = 0 <-> ~ In v tokens).
Proof.
  split; [apply get_incr |].
  rewrite of_tokens_distribution, get_distribution. split; [reflexivity |].
  unfold occurrences. symmetry. apply count_occ_not_In.
Qed.

(** X2.  The items of the distribution of a token sequence are its distinct
    tokens in the order of their first occurrence, each with its number of
    occurrences: no key is repeated, every token of the sequence is a key,
    and every count is at least 1. *)
Theorem freqdist_items_in_first_occurrence_order (tokens : list string) :
  FreqDist.items (FreqDist.of_tokens tokens)
    = map (fun w => (w, occurrences tokens w)) (first_occurrences tokens)
  /\ NoDup (FreqDist.keys (FreqDist.of_tokens tokens))
  /\ (forall w, In w (FreqDist.keys (FreqDist.of_tokens tokens))
                <-> In w tokens)
  /\ Forall (fun c => 1 <= c) (FreqDist.values (FreqDist.of_tokens tokens)).
Proof.
  unfold FreqDist.items, FreqDist.keys, FreqDist.values.
  rewrite of_tokens_distribution, distribution_keys.
  repeat split.
  - apply first_occurrences_NoDup.
  - apply first_occurrences_In.
  - apply first_occurrences_In.
  - apply Forall_forall. intros c Hc. apply in_map_iff in Hc.
    destruct Hc as [[w c'] [Heq Hin]]. cbn [snd] in Heq. subst c'.
    apply distribution_In in Hin. destruct Hin as [Hin ->].
    unfold occurrences. now apply count_occ_In.
Qed.

(** X3.  The counts of the distribution add up to the number of tokens, and
    the distribution has at most as many entries as there are tokens. *)
Theorem freqdist_counts_add_up (tokens : list string) :
  int_sum (FreqDist.values (FreqDist.of_tokens tokens)) = List.length tokens
  /\ FreqDist.len (FreqDist.of_tokens tokens) <= List.length tokens.
Proof.
  split.
  - induction tokens as [| w l IH] using rev_ind; [reflexivity |].
    rewrite of_tokens_snoc, values_incr, IH, length_app. simpl. lia.
  - unfold FreqDist.len. rewrite of_tokens_distribution.
    unfold distribution. rewrite length_map.
    apply NoDup_incl_length; [apply first_occurrences_NoDup |].
    intros w Hw. now apply first_occurrences_In.
Qed.

(* ================================================================= *)
(** ** More on the preprocessor *)

Lemma prefix_empty (s : string) : String.prefix EmptyString s = true.
Proof. now destruct s. Qed.

Lemma contains_char (hay : string) (c : ascii) :
  Str.contains hay (String c EmptyString)
  = existsb (Ascii.eqb c) (list_ascii_of_string hay).
Proof.
  induction hay as [| a r IH]; [reflexivity |].
  cbn [Str.contains String.prefix list_ascii_of_string existsb].
  rewrite IH. destruct (ascii_dec c a) as [-> | Hne].
  - now rewrite Ascii.eqb_refl, prefix_empty.
  - destruct (Ascii.eqb_spec c a); [contradiction | reflexivity].
Qed.

Lemma contains_empty (hay : string) : Str.contains hay EmptyString = true.
Proof. destruct hay; reflexivity. Qed.

(** X4.  Every token that survives preprocessing was produced by the
    tokenizer on the lowercased text, is not a stopword, is not empty and is
    not a single punctuation character. *)
Theorem preprocess_drops_stopwords_and_punctuation_marks
  (word_tokenize : string -> list string) (stopwords_english : list string)
  (text token : string) :
  In token (preprocess_text word_tokenize stopwords_english text) ->
  In token (word_tokenize (Str.lower text))
  /\ ~ In token stopwords_english
  /\ token <> EmptyString
  /\ (forall c, token = String c EmptyString -> Str.is_punct_char c = false).
Proof.
  intros Hin. apply preprocess_text_kept in Hin.
  destruct Hin as (Htok & Hstop & Hpunct). repeat split; try assumption.
  - intros ->. now rewrite contains_empty in Hpunct.
  - intros c ->. unfold Str.is_punct_char. now rewrite <- contains_char.
Qed.

Lemma preprocess_drops_stopwords_and_punctuation_marks_witness :
  In "cat" ["the"; "cat"; "."]
  /\ ~ In "cat" ["the"]
  /\ "cat" <> EmptyString
  /\ (forall c, "cat" = String c EmptyString -> Str.is_punct_char c = false).
Proof.
  apply (preprocess_drops_stopwords_and_punctuation_marks
           (fun _ => ["the"; "cat"; "."]) ["the"] "The cat." "cat").
  simpl. now left.
Defined.

Lemma lower_ascii_idempotent (c : ascii) :
  Str.lower_ascii (Str.lower_ascii c) = Str.lower_ascii c.
Proof.
  destruct c as [[] [] [] [] [] [] [] []]; reflexivity.
Qed.

Lemma lower_idempotent (s : string) : Str.lower (Str.lower s) = Str.lower s.
Proof.
  induction s as [| c r IH]; [reflexivity |]. cbn [Str.lower].
  now rewrite lower_ascii_idempotent, IH.
Qed.

(** X5.  Preprocessing ignores the case of ASCII letters: a text and its
    lowercased form give the same tokens. *)
Theorem preprocess_ignores_case (word_tokenize : string -> list string)
  (stopwords_english : list string) (text : string) :
  preprocess_text word_tokenize stopwords_english (Str.lower text)
  = preprocess_text word_tokenize stopwords_english text.
Proof.
  unfold preprocess_text. now rewrite lower_idempotent.
Qed.

(* ================================================================= *)
(** ** More on burstiness *)

Lemma calculate_burstiness_value (tok : string -> list string)
  (stop : list string) (text : string) :
  preprocess_text tok stop text <> [] ->
  calculate_burstiness tok stop text =
  Ok (Float.Fin (spec_burstiness
                   (map snd (distribution (preprocess_text tok stop text))))).
Proof.
  intros Hne. unfold calculate_burstiness.
  rewrite of_tokens_distribution.
  destruct (preprocess_text tok stop text) as [| x r]; [contradiction |].
  set (d := distribution (x :: r)).
  set (counts := map snd d).
  assert (Hlen : (0 < INR (FreqDist.len d))%R).
  { apply lt_0_INR. unfold FreqDist.len, d. simpl. lia. }
  assert (HN : (0 < INR (int_sum (FreqDist.values d)))%R).
  { apply lt_0_INR. pose proof (distribution_total_pos x r) as H.
    fold d in H. lia. }
  assert (Hcounts : FreqDist.values d = counts) by reflexivity.
  assert (Hl : FreqDist.len d = List.length counts).
  { unfold counts, FreqDist.len. now rewrite length_map. }
  assert (Havg : (INR (int_sum (FreqDist.values d)) / INR (FreqDist.len d))%R
                 = spec_mean counts).
  { unfold spec_mean. now rewrite INR_int_sum, Hcounts, Hl. }
  assert (Hpos : (0 < spec_mean counts)%R).
  { rewrite <- Havg. now apply Rdiv_lt_0_compat. }
  rewrite true_div_ok by lra. cbn [bind]. rewrite Havg.
  rewrite true_div_ok by lra. cbn [bind].
  rewrite true_div_ok by (apply pow_nonzero; lra). cbn [bind].
  unfold spec_burstiness, spec_variance.
  rewrite Rsum_fold_right, Hcounts, Hl.
  do 2 f_equal. f_equal; [| simpl; lra]. f_equal. f_equal.
  apply map_ext. intros c. simpl. lra.
Qed.

Lemma counts_of_distribution (tokens : list string) :
  map snd (distribution tokens)
  = map (occurrences tokens) (first_occurrences tokens).
Proof. unfold distribution. now rewrite map_map. Qed.

Lemma counts_positive (tokens : list string) :
  Forall (fun c => 1 <= c) (map snd (distribution tokens)).
Proof.
  rewrite counts_of_distribution. apply Forall_forall. intros c Hc.
  apply in_map_iff in Hc. destruct Hc as [w [<- Hw]].
  pose proof (proj1 (first_occurrences_In tokens w) Hw) as Hin.
  unfold occurrences. now apply count_occ_In.
Qed.

Lemma sum_INR_lower (counts : list nat) :
  Forall (fun c => 1 <= c) counts ->
  (INR (List.length counts) <= fold_right Rplus 0%R (map INR counts))%R.
Proof.
  induction 1 as [| c r Hc Hall IH]; [simpl; lra |].
  cbn [List.length map fold_right]. rewrite S_INR.
  apply le_INR in Hc. simpl in Hc. lra.
Qed.

Lemma spec_mean_pos (counts : list nat) :
  counts <> [] -> Forall (fun c => 1 <= c) counts ->
  (1 <= spec_mean counts)%R.
Proof.
  intros Hne Hall. unfold spec_mean.
  assert (Hn : (0 < INR (List.length counts))%R).
  { apply lt_0_INR. destruct counts; [contradiction | simpl; lia]. }
  pose proof (sum_INR_lower counts Hall) as Hs.
  apply (Rmult_le_reg_r (INR (List.length counts))); [assumption |].
  unfold Rdiv. rewrite Rmult_assoc, Rinv_l by lra. lra.
Qed.

Lemma sum_squares_nonneg (m : R) (counts : list nat) :
  (0 <= fold_right Rplus 0%R
          (map (fun c => ((INR c - m) * (INR c - m))%R) counts))%R.
Proof.
  induction counts as [| c r IH]; cbn [map fold_right]; [lra |].
  pose proof (Rle_0_sqr (INR c - m)) as H. unfold Rsqr in H. lra.
Qed.

Lemma sum_squares_zero (m : R) (counts : list nat) :
  fold_right Rplus 0%R (map (fun c => ((INR c - m) * (INR c - m))%R) counts) = 0%R
  <-> Forall (fun c => INR c = m) counts.
Proof.
  induction counts as [| c r IH]; cbn [map fold_right].
  - split; [constructor | reflexivity].
  - pose proof (Rle_0_sqr (INR c - m)) as Hsq. unfold Rsqr in Hsq.
    pose proof (sum_squares_nonneg m r) as Hr. split.
    + intros H.
      assert (H1 : ((INR c - m) * (INR c - m) = 0)%R) by lra.
      assert (H2 : fold_right Rplus 0%R
                     (map (fun c => ((INR c - m) * (INR c - m))%R) r) = 0%R)
        by lra.
      constructor; [| now apply IH].
      apply Rmult_integral in H1. lra.
    + intros H. inversion H as [| ? ? Hc Hall]; subst.
      apply IH in Hall. rewrite Hall. lra.
Qed.

Lemma spec_variance_nonneg (counts : list nat) :
  (0 <= spec_variance counts)%R.
Proof.
  unfold spec_variance. destruct counts as [| c r].
  - simpl. unfold Rdiv. rewrite Rinv_0. lra.
  - apply Rmult_le_pos; [apply sum_squares_nonneg |].
    left. apply Rinv_0_lt_compat. apply lt_0_INR. simpl. lia.
Qed.

Lemma spec_burstiness_nonneg (counts : list nat) :
  counts <> [] -> Forall (fun c => 1 <= c) counts ->
  (0 <= spec_burstiness counts)%R.
Proof.
  intros Hne Hall. unfold spec_burstiness.
  pose proof (spec_mean_pos counts Hne Hall) as Hm.
  apply Rmult_le_pos; [apply spec_variance_nonneg |].
  left. apply Rinv_0_lt_compat. nra.
Qed.

Lemma spec_burstiness_zero (counts : list nat) :
  counts <> [] -> Forall (fun c => 1 <= c) counts ->
  (spec_burstiness counts = 0%R
   <-> Forall (fun c => INR c = spec_mean counts) counts).
Proof.
  intros Hne Hall.
  pose proof (spec_mean_pos counts Hne Hall) as Hm.
  assert (Hn : (0 < INR (List.length counts))%R).
  { apply lt_0_INR. destruct counts; [contradiction | simpl; lia]. }
  rewrite <- sum_squares_zero. unfold spec_burstiness, spec_variance.
  set (Q := fold_right Rplus 0%R _). set (mu := spec_mean counts) in *.
  split.
  - intros H. unfold Rdiv in H.
    apply Rmult_integral in H. destruct H as [H | H].
    + apply Rmult_integral in H. destruct H as [H | H]; [exact H |].
      pose proof (Rinv_0_lt_compat _ Hn). lra.
    + assert (0 < mu * mu)%R by nra.
      pose proof (Rinv_0_lt_compat _ H0). lra.
  - intros ->. unfold Rdiv. lra.
Qed.

Lemma Forall_same_mean (counts : list nat) (k : nat) :
  counts <> [] -> Forall (fun c => c = k) counts ->
  spec_mean counts = INR k.
Proof.
  intros Hne Hall. unfold spec_mean.
  assert (Hn : (0 < INR (List.length counts))%R).
  { apply lt_0_INR. destruct counts; [contradiction | simpl; lia]. }
  assert (Hs : fold_right Rplus 0%R (map INR counts)
               = (INR (List.length counts) * INR k)%R).
  { clear Hne Hn. induction Hall as [| c r Hc Hall IH]; [simpl; lra |].
    cbn [List.length map fold_right]. rewrite S_INR, IH, Hc. lra. }
  rewrite Hs. field. lra.
Qed.

Lemma sum_squares_expand (m : R) (counts : list nat) :
  fold_right Rplus 0%R (map (fun c => ((INR c - m) * (INR c - m))%R) counts)
  = (fold_right Rplus 0%R (map (fun c => (INR c * INR c)%R) counts)
     - 2 * m * fold_right Rplus 0%R (map INR counts)
     + INR (List.length counts) * m * m)%R.
Proof.
  induction counts as [| c r IH]; cbn [List.length map fold_right].
  - simpl. lra.
  - rewrite IH, S_INR. lra.
Qed.

Lemma sum_of_squares_le_square_of_sum (counts : list nat) :
  (0 <= fold_right Rplus 0%R (map INR counts))%R
  /\ (fold_right Rplus 0%R (map (fun c => (INR c * INR c)%R) counts)
      <= fold_right Rplus 0%R (map INR counts)
         * fold_right Rplus 0%R (map INR counts))%R.
Proof.
  induction counts as [| c r [IHs IHq]]; cbn [map fold_right].
  - split; lra.
  - pose proof (pos_INR c) as Hc. split; [lra | nra].
Qed.

Lemma spec_burstiness_upper (counts : list nat) :
  counts <> [] -> Forall (fun c => 1 <= c) counts ->
  (spec_burstiness counts <= INR (List.length counts) - 1)%R.
Proof.
  intros Hne Hall.
  pose proof (spec_mean_pos counts Hne Hall) as Hm.
  assert (Hn : (0 < INR (List.length counts))%R).
  { apply lt_0_INR. destruct counts; [contradiction | simpl; lia]. }
  destruct (sum_of_squares_le_square_of_sum counts) as [HS0 HQ].
  unfold spec_burstiness, spec_variance.
  rewrite sum_squares_expand.
  set (mu := spec_mean counts) in *.
  set (n := INR (List.length counts)) in *.
  set (Q := fold_right Rplus 0%R (map (fun c => (INR c * INR c)%R) counts))
    in *.
  set (S := fold_right Rplus 0%R (map INR counts)) in *.
  assert (HS : S = (n * mu)%R).
  { unfold mu, spec_mean. fold S. fold n. field. lra. }
  assert (Hmu2 : (0 < mu * mu)%R) by nra.
  apply (Rmult_le_reg_r (mu * mu)); [assumption |].
  replace ((Q - 2 * mu * S + n * mu * mu) / n / (mu * mu) * (mu * mu))%R
    with ((Q - 2 * mu * S + n * mu * mu) / n)%R by (field; lra).
  apply (Rmult_le_reg_r n); [assumption |].
  replace ((Q - 2 * mu * S + n * mu * mu) / n * n)%R
    with (Q - 2 * mu * S + n * mu * mu)%R by (field; lra).
  rewrite HS in *. nra.
Qed.

(** X6.  Whenever the text has a token left, the burstiness score is a real
    number between 0 and the number of distinct tokens minus 1. *)
Theorem burstiness_bounds (word_tokenize : string -> list string)
  (stopwords_english : list string) (text : string) :
  let tokens := preprocess_text word_tokenize stopwords_english text in
  tokens <> [] ->
  exists b,
    calculate_burstiness word_tokenize stopwords_english text
      = Ok (Float.Fin b)
    /\ (0 <= b <= INR (List.length (first_occurrences tokens)) - 1)%R.
Proof.
  intros tokens Hne. eexists. split.
  - now apply calculate_burstiness_value.
  - fold tokens.
    assert (Hc : map snd (distribution tokens) <> []).
    { intros H. apply map_eq_nil in H. now apply distribution_nil in H. }
    pose proof (counts_positive tokens) as Hall.
    split.
    + now apply spec_burstiness_nonneg.
    + replace (List.length (first_occurrences tokens))
        with (List.length (map snd (distribution tokens))).
      * now apply spec_burstiness_upper.
      * unfold distribution. now rewrite !length_map.
Qed.

Lemma burstiness_bounds_witness :
  exists b,
    calculate_burstiness (fun _ => ["a"; "b"; "a"]) ["the"] "a b a"
      = Ok (Float.Fin b)
    /\ (0 <= b
        <= INR (List.length (first_occurrences ["a"; "b"; "a"])) - 1)%R.
Proof.
  apply (burstiness_bounds (fun _ => ["a"; "b"; "a"]) ["the"] "a b a").
  discriminate.
Defined.

(** X7.  Whenever the text has a token left, the burstiness score is exactly
    0 if and only if all distinct tokens occur the same number of times; in
    particular it is 0 when every token occurs once and when the text repeats
    a single word. *)
Theorem burstiness_zero_iff_uniform (word_tokenize : string -> list string)
  (stopwords_english : list string) (text : string) :
  let tokens := preprocess_text word_tokenize stopwords_english text in
  tokens <> [] ->
  (calculate_burstiness word_tokenize stopwords_english text
     = Ok (Float.Fin 0)
   <-> uniform_counts tokens).
Proof.
  intros tokens Hne. rewrite calculate_burstiness_value by assumption.
  fold tokens.
  assert (Hc : map snd (distribution tokens) <> []).
  { intros H. apply map_eq_nil in H. now apply distribution_nil in H. }
  pose proof (counts_positive tokens) as Hall.
  pose proof (spec_burstiness_zero _ Hc Hall) as Hz.
  assert (Hin : forall w, In w tokens ->
                          In (occurrences tokens w)
                             (map snd (distribution tokens))).
  { intros w Hw. rewrite counts_of_distribution. apply in_map.
    now apply first_occurrences_In. }
  split.
  - intros H. assert (H0 : spec_burstiness (map snd (distribution tokens))
                           = 0%R) by congruence.
    apply Hz in H0. rewrite Forall_forall in H0.
    intros w v Hw Hv. apply INR_eq.
    rewrite (H0 _ (Hin w Hw)), (H0 _ (Hin v Hv)). reflexivity.
  - intros Hu. do 2 f_equal. apply Hz.
    destruct tokens as [| x r] eqn:E; [contradiction |].
    assert (Hk : Forall (fun c => c = occurrences (x :: r) x)
                        (map snd (distribution (x :: r)))).
    { rewrite counts_of_distribution. apply Forall_forall. intros c Hcin.
      apply in_map_iff in Hcin. destruct Hcin as [w [<- Hw]].
      apply Hu; [now apply first_occurrences_In | now left]. }
    rewrite (Forall_same_mean _ _ Hc Hk).
    apply Forall_forall. intros c Hcin.
    rewrite Forall_forall in Hk. now rewrite (Hk c Hcin).
Qed.

Lemma burstiness_zero_iff_uniform_witness :
  calculate_burstiness (fun _ => ["a"; "b"; "c"]) ["the"] "a b c"
    = Ok (Float.Fin 0)
  <-> uniform_counts ["a"; "b"; "c"].
Proof.
  apply (burstiness_zero_iff_uniform (fun _ => ["a"; "b"; "c"]) ["the"]
           "a b c").
  discriminate.
Defined.

(* ================================================================= *)
(** ** More on perplexity *)

Lemma count_le_total (c : NgramCounter.t) (ctx : list string) (w : string) :
  NgramCounter.count c ctx w <= NgramCounter.total c ctx.
Proof.
  unfold NgramCounter.count, NgramCounter.total.
  induction c as [| g r IH]; [reflexivity |]. cbn [count_occ filter].
  destruct (ngram_eq_dec g (ctx ++ [w])) as [-> | Hne].
  - rewrite split_last_snoc.
    destruct (ngram_eq_dec ctx ctx) as [_ | H]; [| now destruct H].
    cbn [List.length]. lia.
  - destruct (split_last g) as [[ctx' w'] |]; [| exact IH].
    destruct (ngram_eq_dec ctx' ctx); [cbn [List.length]; lia | exact IH].
Qed.

Lemma freq_le_1 (c : NgramCounter.t) (ctx : list string) (w : string) :
  (NgramCounter.freq c ctx w <= 1)%R.
Proof.
  unfold NgramCounter.freq. pose proof (count_le_total c ctx w) as Hle.
  destruct (NgramCounter.total c ctx) as [| k] eqn:E; [lra |].
  assert (Hk : (0 < INR (S k))%R) by (apply lt_0_INR; lia).
  apply le_INR in Hle.
  apply (Rmult_le_reg_r (INR (S k))); [assumption |].
  unfold Rdiv. rewrite Rmult_assoc, Rinv_l by lra. lra.
Qed.

Lemma ngram_probability_le_1 (m : LanguageModel) (g : ngram) :
  (ngram_probability m g <= 1)%R.
Proof.
  unfold ngram_probability. destruct (split_last g) as [[ctx w] |]; [| lra].
  apply freq_le_1.
Qed.

Lemma Rprod_unit_interval (ps : list R) :
  Forall (fun p => 0 <= p <= 1)%R ps -> (0 <= Rprod ps <= 1)%R.
Proof.
  induction 1 as [| p r Hp Hall IH]; cbn [Rprod fold_right]; [lra |].
  fold (Rprod r). nra.
Qed.

(** X8.  For a model whose order is at least 1 and at most the length of the
    padded token sequence, the perplexity of a text is never below 1: it is
    plus infinity or a real number that is at least 1. *)
Theorem perplexity_at_least_one (word_tokenize : string -> list string)
  (stopwords_english : list string) (text : string) (m : LanguageModel) :
  let tokens := preprocess_text word_tokenize stopwords_english text in
  1 <= order m <= List.length tokens + 2 ->
  calculate_perplexity word_tokenize stopwords_english text m
    = Ok Float.PosInf
  \/ exists r,
       calculate_perplexity word_tokenize stopwords_english text m
         = Ok (Float.Fin r)
       /\ (1 <= r)%R.
Proof.
  intros tokens Horder.
  destruct (queried_ngrams_facts m tokens Horder) as (_ & _ & Hne & Hall).
  unfold calculate_perplexity. fold tokens. fold (queried_ngrams m tokens).
  rewrite perplexity_value by assumption.
  set (ps := map (ngram_probability m) (queried_ngrams m tokens)).
  destruct (Req_dec_T (Rprod ps) 0) as [Hz | Hnz]; [now left |].
  right. eexists. split; [reflexivity |].
  assert (Hunit : (0 <= Rprod ps <= 1)%R).
  { apply Rprod_unit_interval. apply Forall_forall. intros p Hp.
    unfold ps in Hp. apply in_map_iff in Hp. destruct Hp as [g [<- _]].
    split; [apply ngram_probability_nonneg | apply ngram_probability_le_1]. }
  assert (HN : (0 < INR (List.length (queried_ngrams m tokens)))%R).
  { apply lt_0_INR. destruct (queried_ngrams m tokens);
      [contradiction | simpl; lia]. }
  assert (Hln : (ln (Rprod ps) <= 0)%R).
  { destruct (Req_dec_T (Rprod ps) 1) as [-> | H1]; [rewrite ln_1; lra |].
    rewrite <- ln_1. left. apply ln_increasing; lra. }
  unfold Rpower. rewrite <- exp_0.
  destruct (Req_dec_T (- / INR (List.length (queried_ngrams m tokens))
                       * ln (Rprod ps)) 0) as [-> | Hnz'];
    [lra |].
  left. apply exp_increasing.
  pose proof (Rinv_0_lt_compat _ HN). nra.
Qed.

Lemma perplexity_at_least_one_witness :
  calculate_perplexity (fun _ => ["hello"]) ["the"] "hello" hello_model
    = Ok Float.PosInf
  \/ exists r,
       calculate_perplexity (fun _ => ["hello"]) ["the"] "hello" hello_model
         = Ok (Float.Fin r)
       /\ (1 <= r)%R.
Proof.
  apply (perplexity_at_least_one (fun _ => ["hello"]) ["the"] "hello"
           hello_model).
  simpl. lia.
Defined.

(** X9.  Whatever the corpus and whatever the text, the perplexity computed
    with the model that [main] trains is plus infinity: at order 1 the
    training pipeline adds no boundary marker and reads each corpus word
    character by character, so the start marker queried first is out of
    vocabulary and the unknown label it is mapped to was never counted. *)
Theorem main_perplexity_always_infinite
  (word_tokenize : string -> list string) (stopwords_english : list string)
  (corpus : list string) (text : string) :
  Vocabulary.lookup (vocab (train corpus)) "<s>" = Vocabulary.unk_label
  /\ score (train corpus) "<s>" [] = 0%R
  /\ calculate_perplexity word_tokenize stopwords_english text (train corpus)
     = Ok Float.PosInf.
Proof.
  split; [apply train_lookup_marker |]. split.
  - unfold score. cbn [map]. rewrite train_lookup_marker.
    apply train_unk_unseen.
  - apply train_perplexity_infinite.
Qed.

(* ================================================================= *)
(** ** More on the classifier and on main *)

(** X10.  When the perplexity is a float that is not below 100 (plus
    infinity and NaN included) the classifier returns the not-likely label
    without looking at the burstiness, which may then even be [None]. *)
Theorem classifier_ignores_burstiness_above_threshold (p : Float.t)
  (b : pyval) :
  ~ float_lt p (Float.Fin 100) ->
  is_generated_text (PFloat p) b = Ok not_likely.
Proof.
  intros Hp. unfold is_generated_text, py_lt, bind.
  destruct (Float.ltb p (Float.Fin 100)) eqn:E; [| reflexivity].
  exfalso. apply Hp. now apply ltb_float_lt.
Qed.

Lemma classifier_ignores_burstiness_above_threshold_witness :
  is_generated_text (PFloat Float.PosInf) PNone = Ok not_likely.
Proof.
  apply (classifier_ignores_burstiness_above_threshold Float.PosInf PNone).
  simpl. tauto.
Defined.

Lemma plot_most_common_words_ok (tok : string -> list string)
  (stop : list string) (text : string) :
  preprocess_text tok stop text <> [] ->
  plot_most_common_words tok stop text
  = Ok (map fst (most_common_words tok stop text),
        map snd (most_common_words tok stop text)).
Proof.
  intros Hne. unfold plot_most_common_words, unpack_zip_star.
  destruct (most_common_words tok stop text) as [| a r] eqn:E;
    [| reflexivity].
  exfalso. apply Hne.
  unfold most_common_words, FreqDist.most_common, FreqDist.items in E.
  rewrite of_tokens_distribution in E. apply firstn_nil_iff in E.
  apply distribution_nil. apply Permutation_nil. rewrite <- E.
  apply sorted_desc_perm.
Qed.

(** The analysis of a non-empty text that has a token left. *)
Lemma text_analysis_shape (tok : string -> list string) (stop : list string)
  (corpus : list string) (text : string) :
  text <> EmptyString ->
  preprocess_text tok stop text <> [] ->
  let b := spec_burstiness
             (map snd (distribution (preprocess_text tok stop text))) in
  let shown :=
    [WriteFloat "Perplexity:" Float.PosInf;
     WriteFloat "Burstiness Score:" (Float.Fin b);
     WriteText "Text Analysis Result:" not_likely;
     Pyplot (map fst (most_common_words tok stop text))
            (map snd (most_common_words tok stop text))] in
  text_analysis tok stop corpus text =
  match plot_repeated_words tok stop text with
  | Raise e => (shown, Some e)
  | Ok (words, heights) => (shown ++ [Pyplot words heights], None)
  end.
Proof.
  intros Htext Htok b shown. unfold text_analysis.
  destruct (String.eqb_spec text EmptyString); [contradiction |].
  rewrite train_perplexity_infinite.
  rewrite calculate_burstiness_value by assumption.
  cbn [is_generated_text py_lt bind Float.ltb].
  rewrite plot_most_common_words_ok by assumption.
  destruct (plot_repeated_words tok stop text) as [[words heights] | e];
    reflexivity.
Qed.

(** X11.  For a non-empty text that has a token left, the analysis of [main]
    shows an infinite perplexity, the burstiness, the not-likely label and
    the chart of the most common words; it then ends with the unpacking
    error if no token occurs twice, and with the chart of the repeated words
    otherwise. *)
Theorem text_analysis_with_tokens (word_tokenize : string -> list string)
  (stopwords_english : list string) (corpus : list string) (text : string) :
  let tokens := preprocess_text word_tokenize stopwords_english text in
  text <> EmptyString ->
  tokens <> [] ->
  exists b words heights,
    let shown :=
      [WriteFloat "Perplexity:" Float.PosInf;
       WriteFloat "Burstiness Score:" (Float.Fin b);
       WriteText "Text Analysis Result:" not_likely;
       Pyplot words heights] in
    calculate_burstiness word_tokenize stopwords_english text
      = Ok (Float.Fin b)
    /\ plot_most_common_words word_tokenize stopwords_english text
       = Ok (words, heights)
    /\ ((forall w, occurrences tokens w <= 1) ->
        text_analysis word_tokenize stopwords_english corpus text
        = (shown, Some ValueError))
    /\ ((exists w, 2 <= occurrences tokens w) ->
        exists words' heights',
          plot_repeated_words word_tokenize stopwords_english text
            = Ok (words', heights')
          /\ text_analysis word_tokenize stopwords_english corpus text
             = (shown ++ [Pyplot words' heights'], None)).
Proof.
  intros tokens Htext Htok.
  pose proof (text_analysis_shape word_tokenize stopwords_english corpus text
                Htext Htok) as Hshape.
  cbv zeta in Hshape. fold tokens in Hshape.
  exists (spec_burstiness (map snd (distribution tokens))),
    (map fst (most_common_words word_tokenize stopwords_english text)),
    (map snd (most_common_words word_tokenize stopwords_english text)).
  cbv zeta. split; [now apply calculate_burstiness_value |].
  split; [now apply plot_most_common_words_ok |].
  assert (Hrep : plot_repeated_words word_tokenize stopwords_english text
                 = Raise ValueError
                 <-> forall w, occurrences tokens w <= 1).
  { unfold plot_repeated_words.
    rewrite unpack_zip_star_raises, repeated_pairs_eq, firstn_nil_iff.
    fold tokens. rewrite filter_nil_iff. split.
    - intros H w. destruct (in_dec string_dec w tokens) as [Hin | Hnin].
      + specialize (H (w, occurrences tokens w)). cbn [snd] in H.
        apply Nat.ltb_ge. apply H. now apply distribution_In.
      + unfold occurrences.
        rewrite (proj1 (count_occ_not_In string_dec tokens w) Hnin). lia.
    - intros H [w c] Hin. apply distribution_In in Hin.
      destruct Hin as [_ ->]. cbn [snd]. apply Nat.ltb_ge. apply H. }
  split.
  - intros Hno. now rewrite Hshape, (proj2 Hrep Hno).
  - intros [w Hw].
    assert (Hnot : plot_repeated_words word_tokenize stopwords_english text
                   <> Raise ValueError).
    { intros H. pose proof (proj1 Hrep H w). lia. }
    clear Hrep. revert Hshape Hnot.
    unfold plot_repeated_words, unpack_zip_star.
    destruct (repeated_pairs word_tokenize stopwords_english text)
      as [| a l]; intros Hshape Hnot.
    + now destruct Hnot.
    + eexists _, _. split; [reflexivity | exact Hshape].
Qed.

Lemma text_analysis_with_tokens_witness :
  exists b words heights,
    let shown :=
      [WriteFloat "Perplexity:" Float.PosInf;
       WriteFloat "Burstiness Score:" (Float.Fin b);
       WriteText "Text Analysis Result:" not_likely;
       Pyplot words heights] in
    calculate_burstiness (fun _ => ["a"; "b"; "a"]) ["the"] "a b a"
      = Ok (Float.Fin b)
    /\ plot_most_common_words (fun _ => ["a"; "b"; "a"]) ["the"] "a b a"
       = Ok (words, heights)
    /\ ((forall w, occurrences ["a"; "b"; "a"] w <= 1) ->
        text_analysis (fun _ => ["a"; "b"; "a"]) ["the"] ["cat"] "a b a"
        = (shown, Some ValueError))
    /\ ((exists w, 2 <= occurrences ["a"; "b"; "a"] w) ->
        exists words' heights',
          plot_repeated_words (fun _ => ["a"; "b"; "a"]) ["the"] "a b a"
            = Ok (words', heights')
          /\ text_analysis (fun _ => ["a"; "b"; "a"]) ["the"] ["cat"] "a b a"
             = (shown ++ [Pyplot words' heights'], None)).
Proof.
  apply (text_analysis_with_tokens (fun _ => ["a"; "b"; "a"]) ["the"]
           ["cat"] "a b a"); discriminate.
Defined.

(** X12.  Whatever the corpus and the text, the analysis of [main] never
    shows the likely-generated label. *)
Theorem text_analysis_never_likely (word_tokenize : string -> list string)
  (stopwords_english : list string) (corpus : list string) (text : string)
  (label : string) :
  ~ In (WriteText label likely)
       (fst (text_analysis word_tokenize stopwords_english corpus text)).
Proof.
  destruct (String.eqb_spec text EmptyString) as [-> | Htext].
  - cbn. intros [H | []]. discriminate.
  - destruct (preprocess_text word_tokenize stopwords_english text)
      as [| x r] eqn:E.
    + rewrite text_analysis_no_tokens by assumption. cbn.
      intros [H | []]. discriminate.
    + assert (Htok : preprocess_text word_tokenize stopwords_english text
                     <> []) by (rewrite E; discriminate).
      rewrite (text_analysis_shape _ _ corpus _ Htext Htok).
      destruct (plot_repeated_words word_tokenize stopwords_english text)
        as [[words heights] | e]; cbn [fst].
      * intros H. apply in_app_or in H. cbn in H.
        decompose [or] H; try contradiction; discriminate.
      * intros H. cbn in H.
        decompose [or] H; try contradiction; discriminate.
Qed.

(** X13.  The edge inputs of the analysis of [main]: the empty text only
    gets the warning, and a non-empty text of which preprocessing leaves no
    token gets its perplexity shown and then ends with the division error of
    the burstiness, before any label or chart. *)
Theorem text_analysis_without_tokens (word_tokenize : string -> list string)
  (stopwords_english : list string) (corpus : list string) (text : string) :
  text <> EmptyString ->
  preprocess_text word_tokenize stopwords_english text = [] ->
  text_analysis word_tokenize stopwords_english corpus EmptyString
    = ([Warning "Please enter some text to analyze."], None)
  /\ text_analysis word_tokenize stopwords_english corpus text
     = ([WriteFloat "Perplexity:" Float.PosInf], Some ZeroDivisionError).
Proof.
  intros Htext Htok. split; [reflexivity |].
  now apply text_analysis_no_tokens.
Qed.

Lemma text_analysis_without_tokens_witness :
  text_analysis (fun _ => ["the"]) ["the"] ["cat"] EmptyString
    = ([Warning "Please enter some text to analyze."], None)
  /\ text_analysis (fun _ => ["the"]) ["the"] ["cat"] "the"
     = ([WriteFloat "Perplexity:" Float.PosInf], Some ZeroDivisionError).
Proof.
  apply (text_analysis_without_tokens (fun _ => ["the"]) ["the"] ["cat"]
           "the").
  - discriminate.
  - reflexivity.
Defined.

(* ================================================================= *)
(** ** More on the two charts *)

Lemma NoDup_firstn_keep {A : Type} (n : nat) (l : list A) :
  NoDup l -> NoDup (firstn n l).
Proof.
  intros H. rewrite <- (firstn_skipn n l) in H.
  now apply NoDup_app_remove_r in H.
Qed.

Lemma firstn_incl {A : Type} (n : nat) (l : list A) (x : A) :
  In x (firstn n l) -> In x l.
Proof.
  intros H. rewrite <- (firstn_skipn n l). apply in_or_app. now left.
Qed.

Lemma StronglySorted_prefix {A : Type} (R : A -> A -> Prop)
  (l1 l2 : list A) :
  StronglySorted R (l1 ++ l2) -> StronglySorted R l1.
Proof.
  induction l1 as [| x r IH]; intros H; [constructor |].
  simpl in H. inversion H as [| ? ? Hr Hall]; subst.
  constructor; [now apply IH |].
  apply Forall_app in Hall. tauto.
Qed.

Lemma StronglySorted_heights (l : list (string * nat)) :
  StronglySorted count_ge l -> StronglySorted height_ge (map snd l).
Proof.
  induction 1 as [| p r Hr IH Hall]; cbn [map]; constructor;
    [assumption |].
  rewrite Forall_map. exact Hall.
Qed.

Lemma Forall2_columns {A B : Type} (R : A -> B -> Prop) (l : list (A * B)) :
  Forall (fun p => R (fst p) (snd p)) l -> Forall2 R (map fst l) (map snd l).
Proof.
  induction 1 as [| p r Hp Hall IH]; cbn [map]; constructor; assumption.
Qed.

(** X14.  Whenever the text has a token left, the chart of the most common
    words is drawn with between 1 and 10 bars, as many as there are distinct
    tokens up to 10: the words are pairwise distinct tokens of the text, each
    height is the number of occurrences of its word, and the heights never
    increase from left to right. *)
Theorem most_common_chart (word_tokenize : string -> list string)
  (stopwords_english : list string) (text : string) :
  let tokens := preprocess_text word_tokenize stopwords_english text in
  tokens <> [] ->
  exists words heights,
    plot_most_common_words word_tokenize stopwords_english text
      = Ok (words, heights)
    /\ List.length words = Nat.min 10 (List.length (first_occurrences tokens))
    /\ 1 <= List.length words <= 10
    /\ NoDup words
    /\ StronglySorted height_ge heights
    /\ Forall2 (fun w h => In w tokens /\ h = occurrences tokens w)
               words heights.
Proof.
  intros tokens Hne.
  set (top := most_common_words word_tokenize stopwords_english text).
  assert (Htop : top = firstn 10 (FreqDist.sorted_desc (distribution tokens))).
  { unfold top, most_common_words, FreqDist.most_common, FreqDist.items.
    now rewrite of_tokens_distribution. }
  assert (Hlen : List.length (map fst top)
                 = Nat.min 10 (List.length (first_occurrences tokens))).
  { rewrite length_map, Htop, length_firstn.
    rewrite (Permutation_length (sorted_desc_perm _)).
    unfold distribution. now rewrite length_map. }
  assert (Hdistinct : 1 <= List.length (first_occurrences tokens)).
  { destruct tokens; [contradiction | simpl; lia]. }
  exists (map fst top), (map snd top). repeat split.
  - now apply plot_most_common_words_ok.
  - exact Hlen.
  - rewrite Hlen. lia.
  - rewrite Hlen. lia.
  - rewrite Htop, <- firstn_map. apply NoDup_firstn_keep.
    apply (Permutation_NoDup
             (Permutation_map fst
                (Permutation_sym (sorted_desc_perm (distribution tokens))))).
    rewrite distribution_keys. apply first_occurrences_NoDup.
  - apply StronglySorted_heights. rewrite Htop.
    apply (StronglySorted_prefix count_ge _
             (skipn 10 (FreqDist.sorted_desc (distribution tokens)))).
    rewrite firstn_skipn. apply sorted_desc_sorted.
  - apply Forall2_columns. apply Forall_forall. intros [w c] Hin.
    rewrite Htop in Hin. apply firstn_incl in Hin.
    apply (Permutation_in _ (sorted_desc_perm _)) in Hin.
    apply distribution_In in Hin. exact Hin.
Qed.

Lemma most_common_chart_witness :
  exists words heights,
    plot_most_common_words (fun _ => ["a"; "b"; "a"]) ["the"] "a b a"
      = Ok (words, heights)
    /\ List.length words
       = Nat.min 10 (List.length (first_occurrences ["a"; "b"; "a"]))
    /\ 1 <= List.length words <= 10
    /\ NoDup words
    /\ StronglySorted height_ge heights
    /\ Forall2 (fun w h => In w ["a"; "b"; "a"]
                           /\ h = occurrences ["a"; "b"; "a"] w)
               words heights.
Proof.
  apply (most_common_chart (fun _ => ["a"; "b"; "a"]) ["the"] "a b a").
  discriminate.
Defined.

(** X15.  Whenever some token of the text occurs at least twice, the chart
    of the repeated words is drawn with between 1 and 10 bars: the words are
    the first ten, in order of first occurrence, of the distinct tokens that
    occur more than once, and each height is the number of occurrences of its
    word, hence at least 2. *)
Theorem repeated_chart (word_tokenize : string -> list string)
  (stopwords_english : list string) (text : string) :
  let tokens := preprocess_text word_tokenize stopwords_english text in
  (exists w, 2 <= occurrences tokens w) ->
  exists words heights,
    plot_repeated_words word_tokenize stopwords_english text
      = Ok (words, heights)
    /\ words = firstn 10 (filter (fun w => 1 <? occurrences tokens w)
                                 (first_occurrences tokens))
    /\ heights = map (occurrences tokens) words
    /\ 1 <= List.length words <= 10
    /\ Forall (fun h => 2 <= h) heights.
Proof.
  intros tokens [w Hw].
  set (W := firstn 10 (filter (fun w => 1 <? occurrences tokens w)
                              (first_occurrences tokens))).
  assert (Hpairs : repeated_pairs word_tokenize stopwords_english text
                   = map (fun w => (w, occurrences tokens w)) W).
  { rewrite repeated_pairs_eq. fold tokens. unfold distribution.
    rewrite filter_map_swap, firstn_map. reflexivity. }
  assert (HW : W <> []).
  { unfold W. intros H. apply firstn_nil_iff in H.
    rewrite filter_nil_iff in H. specialize (H w).
    assert (Hin : In w (first_occurrences tokens)).
    { apply first_occurrences_In. unfold occurrences in Hw.
      apply (count_occ_In string_dec). lia. }
    apply H in Hin. apply Nat.ltb_ge in Hin. lia. }
  exists W, (map (occurrences tokens) W). repeat split.
  - unfold plot_repeated_words, unpack_zip_star. rewrite Hpairs.
    destruct W as [| a r]; [contradiction |]. cbn [map].
    rewrite !map_map. cbn [fst snd]. now rewrite map_id.
  - destruct W; [contradiction | simpl; lia].
  - apply firstn_le_length.
  - rewrite Forall_map. apply Forall_forall. intros v Hv.
    unfold W in Hv. apply firstn_incl in Hv. apply filter_In in Hv.
    destruct Hv as [_ Hv]. apply Nat.ltb_lt in Hv. lia.
Qed.

Lemma repeated_chart_witness :
  exists words heights,
    plot_repeated_words (fun _ => ["a"; "b"; "a"]) ["the"] "a b a"
      = Ok (words, heights)
    /\ words = firstn 10 (filter (fun w => 1 <? occurrences ["a"; "b"; "a"] w)
                                 (first_occurrences ["a"; "b"; "a"]))
    /\ heights = map (occurrences ["a"; "b"; "a"]) words
    /\ 1 <= List.length words <= 10
    /\ Forall (fun h => 2 <= h) heights.
Proof.
  apply (repeated_chart (fun _ => ["a"; "b"; "a"]) ["the"] "a b a").
  exists "a". simpl. lia.
Defined.

(* ================================================================= *)
(** ** Grammar checking *)

Lemma substring_0_0 (s : string) : String.substring 0 0 s = EmptyString.
Proof. now destruct s. Qed.

Lemma substring_prefix_split (m k : nat) (s : string) :
  String.substring 0 (m + k) s
  = (String.substring 0 m s ++ String.substring m k s)%string.
Proof.
  revert s. induction m as [| m IH]; intros s.
  - now rewrite substring_0_0.
  - destruct s as [| c r]; [reflexivity |].
    cbn [Nat.add String.substring String.append]. now rewrite IH.
Qed.

Lemma substring_split (n m k : nat) (s : string) :
  String.substring n (m + k) s
  = (String.substring n m s ++ String.substring (n + m) k s)%string.
Proof.
  revert s. induction n as [| n IH]; intros s.
  - apply substring_prefix_split.
  - destruct s as [| c r]; [reflexivity |].
    cbn [Nat.add String.substring]. apply IH.
Qed.

Lemma substring_whole (s : string) :
  String.substring 0 (String.length s) s = s.
Proof.
  induction s as [| c r IH]; [reflexivity |].
  cbn [String.length String.substring]. now rewrite IH.
Qed.

Lemma substring_length (n m : nat) (s : string) :
  String.length (String.substring n m s)
  = Nat.min m (String.length s - n).
Proof.
  revert n m. induction s as [| c r IH]; intros n m.
  - destruct n, m; reflexivity.
  - destruct n as [| n].
    + destruct m as [| m]; [reflexivity |].
      cbn [String.substring String.length]. rewrite IH. lia.
    + cbn [String.substring String.length Nat.sub]. apply IH.
Qed.

Lemma slice_decomposition (s : string) (start len : nat) :
  start + len <= String.length s ->
  s = (slice s 0 start ++ slice s start (start + len)
       ++ slice s (start + len) (String.length s))%string.
Proof.
  intros Hle. unfold slice.
  replace (start + len - start) with len by lia.
  rewrite Nat.sub_0_r.
  rewrite <- (substring_split start len).
  replace (len + (String.length s - (start + len)))
    with (String.length s - start) by lia.
  pose proof (substring_split 0 start (String.length s - start) s) as H.
  cbn [Nat.add] in H. rewrite <- H.
  replace (start + (String.length s - start)) with (String.length s) by lia.
  symmetry. apply substring_whole.
Qed.

(** X16.  The grammar report has exactly one entry per match of the
    checker, in the same order, and none when there is no match; each entry
    carries the message, the replacements and the context of its match; its
    incorrect text is cut out of the input without ever failing, with a
    length that is the error length clamped to what is left of the text after
    the offset; and when the span lies inside the text, the text is the part
    of length offset before it, then it, then the rest. *)
Theorem grammar_report_entries (tool_check : string -> list Match)
  (text : string) :
  List.length (check_grammar_with_explanations tool_check text)
    = List.length (tool_check text)
  /\ (check_grammar_with_explanations tool_check text = []
      <-> tool_check text = [])
  /\ Forall2
       (fun m e =>
          error e = message m
          /\ suggestions e = replacements m
          /\ error_context e = context m
          /\ String.length (incorrect_text e)
             = Nat.min (errorLength m) (String.length text - offset m)
          /\ (offset m + errorLength m <= String.length text ->
              exists before after,
                text = (before ++ incorrect_text e ++ after)%string
                /\ String.length before = offset m
                /\ String.length (incorrect_text e) = errorLength m))
       (tool_check text)
       (check_grammar_with_explanations tool_check text).
Proof.
  unfold check_grammar_with_explanations.
  split; [apply length_map |]. split.
  - destruct (tool_check text); cbn [map]; split; intros H; easy.
  - induction (tool_check text) as [| m r IH]; cbn [map]; constructor;
      [| exact IH].
    cbn [error suggestions error_context incorrect_text].
    assert (Hlen : String.length
                     (slice text (offset m) (offset m + errorLength m))
                   = Nat.min (errorLength m) (String.length text - offset m)).
    { unfold slice. rewrite substring_length. f_equal. lia. }
    repeat split; try exact Hlen.
    intros Hin.
    exists (slice text 0 (offset m)),
      (slice text (offset m + errorLength m) (String.length text)).
    repeat split.
    + now apply slice_decomposition.
    + unfold slice. rewrite substring_length. lia.
    + rewrite Hlen. lia.
Qed.

(* ================================================================= *)
(** ** The counts and the order of the tokens *)

Lemma counts_perm (t1 t2 : list string) :
  Permutation t1 t2 ->
  Permutation (map snd (distribution t1)) (map snd (distribution t2)).
Proof.
  intros Hp. rewrite !counts_of_distribution.
  assert (Hocc : forall w, occurrences t1 w = occurrences t2 w).
  { intros w. unfold occurrences.
    now apply (Permutation_count_occ string_dec). }
  rewrite (map_ext _ _ Hocc). apply Permutation_map.
  apply NoDup_Permutation; try apply first_occurrences_NoDup.
  intros w. rewrite !first_occurrences_In. split; intros H.
  - now apply (Permutation_in _ Hp).
  - now apply (Permutation_in _ (Permutation_sym Hp)).
Qed.

Lemma int_sum_of_tokens (tokens : list string) :
  int_sum (FreqDist.values (FreqDist.of_tokens tokens)) = List.length tokens.
Proof.
  induction tokens as [| w l IH] using rev_ind; [reflexivity |].
  rewrite of_tokens_snoc, values_incr, IH, length_app. simpl. lia.
Qed.

(** X17.  Rearranging the tokens of a text only rearranges the counts that
    the burstiness is computed from: the two distributions have the same
    counts up to order, hence the same number of entries and the same total.
    Nothing is said of the score itself, a sum of floats taken in the order
    of the counts. *)
Theorem token_order_permutes_counts (tokens1 tokens2 : list string) :
  Permutation tokens1 tokens2 ->
  Permutation (FreqDist.values (FreqDist.of_tokens tokens1))
              (FreqDist.values (FreqDist.of_tokens tokens2))
  /\ FreqDist.len (FreqDist.of_tokens tokens1)
     = FreqDist.len (FreqDist.of_tokens tokens2)
  /\ int_sum (FreqDist.values (FreqDist.of_tokens tokens1))
     = int_sum (FreqDist.values (FreqDist.of_tokens tokens2)).
Proof.
  intros Hp.
  assert (Hc : Permutation (FreqDist.values (FreqDist.of_tokens tokens1))
                           (FreqDist.values (FreqDist.of_tokens tokens2))).
  { unfold FreqDist.values. rewrite !of_tokens_distribution.
    now apply counts_perm. }
  split; [exact Hc |]. split.
  - unfold FreqDist.len.
    rewrite <- (length_map snd (FreqDist.of_tokens tokens1)).
    rewrite <- (length_map snd (FreqDist.of_tokens tokens2)).
    exact (Permutation_length Hc).
  - rewrite !int_sum_of_tokens. exact (Permutation_length Hp).
Qed.

Lemma token_order_permutes_counts_witness :
  Permutation (FreqDist.values (FreqDist.of_tokens ["a"; "b"; "a"]))
              (FreqDist.values (FreqDist.of_tokens ["b"; "a"; "a"]))
  /\ FreqDist.len (FreqDist.of_tokens ["a"; "b"; "a"])
     = FreqDist.len (FreqDist.of_tokens ["b"; "a"; "a"])
  /\ int_sum (FreqDist.values (FreqDist.of_tokens ["a"; "b"; "a"]))
     = int_sum (FreqDist.values (FreqDist.of_tokens ["b"; "a"; "a"])).
Proof.
  apply (token_order_permutes_counts ["a"; "b"; "a"] ["b"; "a"; "a"]).
  apply perm_swap.
Defined.

(* ================================================================= *)
(** ** The download of the Article Writer branch *)

Lemma replace_char_length (old new : ascii) (s : string) :
  String.length (replace_char old new s) = String.length s.
Proof.
  induction s as [| c r IH]; [reflexivity |].
  cbn [replace_char String.length]. now rewrite IH.
Qed.

Lemma replace_char_removes (old new : ascii) (s : string) :
  old <> new ->
  ~ In old (list_ascii_of_string (replace_char old new s)).
Proof.
  intros Hne. induction s as [| c r IH]; [easy |].
  cbn [replace_char list_ascii_of_string In]. intros [H | H]; [| auto].
  destruct (Ascii.eqb_spec c old) as [-> | Hc]; congruence.
Qed.

Lemma replace_char_absent (old new : ascii) (s : string) :
  ~ In old (list_ascii_of_string s) -> replace_char old new s = s.
Proof.
  induction s as [| c r IH]; [reflexivity |].
  cbn [replace_char list_ascii_of_string In]. intros H.
  destruct (Ascii.eqb_spec c old) as [-> | Hc].
  - exfalso. apply H. now left.
  - f_equal. apply IH. intros Hr. apply H. now right.
Qed.

Lemma list_ascii_app (s1 s2 : string) :
  list_ascii_of_string (s1 ++ s2)
  = list_ascii_of_string s1 ++ list_ascii_of_string s2.
Proof.
  induction s1 as [| c r IH]; [reflexivity |].
  cbn [String.append list_ascii_of_string app]. now rewrite IH.
Qed.

Lemma string_length_app (s1 s2 : string) :
  String.length (s1 ++ s2) = String.length s1 + String.length s2.
Proof.
  induction s1 as [| c r IH]; [reflexivity |].
  cbn [String.append String.length Nat.add]. now rewrite IH.
Qed.

Lemma append_same_length_inv (s1 s2 t : string) :
  String.length s1 = String.length s2 ->
  (s1 ++ t)%string = (s2 ++ t)%string -> s1 = s2.
Proof.
  revert s2. induction s1 as [| c r IH]; intros [| c' r'] Hlen Heq;
    try discriminate; [reflexivity |].
  cbn [String.append] in Heq. inversion Heq; subst.
  f_equal. apply IH; [now inversion Hlen | assumption].
Qed.

(** X18.  The name of the downloaded article never contains a space, is
    three characters longer than the topic, and is the topic followed by the
    extension exactly when the topic has no space. *)
Theorem article_file_name_has_no_space (topic : string) :
  ~ In space (list_ascii_of_string (article_file_name topic))
  /\ String.length (article_file_name topic) = String.length topic + 3
  /\ (article_file_name topic = (topic ++ ".md")%string
      <-> ~ In space (list_ascii_of_string topic)).
Proof.
  unfold article_file_name. repeat split.
  - rewrite list_ascii_app. intros H. apply in_app_or in H.
    destruct H as [H | H].
    + revert H. apply replace_char_removes. discriminate.
    + cbn in H. decompose [or] H; try contradiction; discriminate.
  - rewrite string_length_app, replace_char_length. reflexivity.
  - intros Heq. apply append_same_length_inv in Heq;
      [| apply replace_char_length].
    rewrite <- Heq. apply replace_char_removes. discriminate.
  - intros H. now rewrite replace_char_absent.
Qed.
